(* ===================================================================== *)
(* make_lastfm_banner.py: a shallow embedding and its verified properties *)
(* ===================================================================== *)
(* The script fetches a user's recent listens, counts the albums among the
   most recent LAST_N_LISTENS of them, downloads one cover per selected
   album and pastes the covers on a GRID x GRID canvas.

   Embedding conventions
   - Python values that come out of the JSON decoder are the type [json];
     None is [JNull].
   - A Python str is a list of Unicode code points ([pystr]); the em dash
     of the album key is the code point 0x2014.
   - Python int is Z; lengths and counters that only count up are nat.
   - A call that may raise returns [result]; the effects of main (network
     requests, sleeps, the saved file, the printed line) are recorded in
     a trace, threaded by the monad [M].
   - The network and the resampling filter of the imaging library are the
     fields of a [platform] record: every theorem is for all platforms.
   - The two calls on the file system (os.makedirs, canvas.save) succeed
     in [main]; [main_on] is the run on a [filesystem] where they may
     fail. *)

From Stdlib Require Import ZArith NArith QArith String Ascii List Lia.
From Stdlib Require Import DecimalString.
From stdpp Require Import base gmap list sorting.

Local Open Scope Z_scope.

(* --------------------------------------------------------------------- *)
(* Strings                                                                *)
(* --------------------------------------------------------------------- *)

Module PyStr.

(* A Python str: the sequence of its code points. *)
Definition pystr := list N.

(* An ASCII literal as a Python str. *)
Fixpoint lit (s : string) : pystr :=
  match s with
  | EmptyString => []
  | String c r => N_of_ascii c :: lit r
  end.

(* str.isspace on one code point: the characters str.strip() removes. *)
Definition isspace (c : N) : bool :=
  (((0x09 <=? c) && (c <=? 0x0D)) || ((0x1C <=? c) && (c <=? 0x20))
   || (c =? 0x85) || (c =? 0xA0) || (c =? 0x1680)
   || ((0x2000 <=? c) && (c <=? 0x200A))
   || (c =? 0x2028) || (c =? 0x2029) || (c =? 0x202F) || (c =? 0x205F)
   || (c =? 0x3000))%N.

Fixpoint lstrip (s : pystr) : pystr :=
  match s with
  | [] => []
  | c :: r => if isspace c then lstrip r else s
  end.

Definition rstrip (s : pystr) : pystr := rev (lstrip (rev s)).

(* s.strip() *)
Definition strip (s : pystr) : pystr := rstrip (lstrip s).

(* str(n) for an int *)
Definition of_int (n : Z) : pystr := lit (NilZero.string_of_int (Z.to_int n)).

End PyStr.
Export PyStr.

(* --------------------------------------------------------------------- *)
(* Decoded JSON values                                                    *)
(* --------------------------------------------------------------------- *)

#[warnings="-register-all"]
Inductive json : Type :=
  | JNull
  | JBool (b : bool)
  | JNum (q : Q)                        (* an int or a float, as a rational *)
  | JStr (s : pystr)
  | JArr (items : list json)
  | JObj (fields : list (pystr * json)). (* the items of a dict, one per key *)

(* bool(v): None, False, zero, and empty strings, lists and dicts are
   falsy. *)
Definition truthy (v : json) : bool :=
  match v with
  | JNull => false
  | JBool b => b
  | JNum q => negb (Qeq_bool q 0)
  | JStr s => match s with [] => false | _ => true end
  | JArr l => match l with [] => false | _ => true end
  | JObj l => match l with [] => false | _ => true end
  end.

(* Exceptions the script can meet. *)
Inductive exn : Type :=
  | RuntimeError (msg : pystr)
  | AttributeError
  | TypeError
  | ValueError
  | ZeroDivisionError
  | OverflowError
  | OSError
  | KeyError (key : pystr)
  | RequestException
  | HTTPError (status : Z)
  | JSONDecodeError
  | UnidentifiedImageError.

Inductive result (A : Type) : Type :=
  | Ok (a : A)
  | Raise (e : exn).
Arguments Ok {A} a.
Arguments Raise {A} e.

Definition rbind {A B} (r : result A) (f : A -> result B) : result B :=
  match r with
  | Ok a => f a
  | Raise e => Raise e
  end.

Declare Scope result_scope.
Delimit Scope result_scope with result.
Notation "x <-? r ; k" := (rbind r (fun x => k))
  (at level 100, r at next level, right associativity) : result_scope.

(* d[k] lookup in the items of a dict *)
Fixpoint dict_lookup (k : pystr) (d : list (pystr * json)) : option json :=
  match d with
  | [] => None
  | (k', v) :: r => if decide (k = k') then Some v else dict_lookup k r
  end.

(* d.get(k, default) on a dict *)
Definition dict_get (d : list (pystr * json)) (k : pystr) (default : json) : json :=
  match dict_lookup k d with
  | Some v => v
  | None => default
  end.

(* v.get(k, default) on any value: only a dict has the method. *)
Definition py_get (v : json) (k : pystr) (default : json) : result json :=
  match v with
  | JObj d => Ok (dict_get d k default)
  | _ => Raise AttributeError
  end.

(* v.strip(): only a str has the method. *)
Definition py_strip (v : json) : result pystr :=
  match v with
  | JStr s => Ok (strip s)
  | _ => Raise AttributeError
  end.

(* x or [] *)
Definition or_empty_list (v : json) : json :=
  if truthy v then v else JArr [].

(* The items a for loop (or reversed) walks through. *)
Definition py_iter (v : json) : result (list json) :=
  match v with
  | JArr l => Ok l
  | JStr s => Ok (map (fun c => JStr [c]) s)
  | JObj d => Ok (map (fun kv => JStr (fst kv)) d)
  | _ => Raise TypeError
  end.

(* --------------------------------------------------------------------- *)
(* pick_best_image_url and safe_album_key                                 *)
(* --------------------------------------------------------------------- *)

Local Open Scope result_scope.

(* The body of the loop of pick_best_image_url over the reversed list:
   the first truthy "#text" is returned, None at the end. *)
Fixpoint scan_images (items : list json) : result json :=
  match items with
  | [] => Ok JNull
  | item :: rest =>
      url <-? py_get item (lit "#text") JNull;
      if truthy url then Ok url else scan_images rest
  end.

Definition pick_best_image_url (track : json) : result json :=
  img <-? py_get track (lit "image") (JArr []);
  let images := or_empty_list img in
  items <-? py_iter images;
  scan_images (rev items).

(* The separator of the f-string: space, em dash, space. *)
Definition key_sep : pystr := [0x20; 0x2014; 0x20]%N.

Definition safe_album_key (track : json) : result (option pystr) :=
  a <-? py_get track (lit "artist") JNull;
  let artist :=
    match a with
    | JObj d => dict_get d (lit "name") JNull
    | JStr _ => a
    | _ => JNull
    end in
  al <-? py_get track (lit "album") JNull;
  let album :=
    match al with
    | JObj d => dict_get d (lit "#text") JNull
    | JStr _ => al
    | _ => JNull
    end in
  if negb (truthy artist) || negb (truthy album) then Ok None else
  artist' <-? py_strip artist;
  album' <-? py_strip album;
  if negb (truthy (JStr artist')) || negb (truthy (JStr album')) then Ok None
  else Ok (Some (artist' ++ key_sep ++ album')).


(* --------------------------------------------------------------------- *)
(* Images                                                                 *)
(* --------------------------------------------------------------------- *)

Definition rgb : Type := Z * Z * Z.

(* An RGB image: its size and the colour of the pixel at column x, row y
   (meaningful for 0 <= x < img_w and 0 <= y < img_h). *)
Record image : Type := { img_w : Z; img_h : Z; img_px : Z -> Z -> rgb }.

(* The largest C int: the imaging library hands the two numbers of a size
   to C code as ints. *)
Definition INT_MAX : Z := 2147483647.

(* Image.new("RGB", size, color): a negative number is refused by the
   check of the size, one that does not fit a C int by the conversion.
   (Memory is not modelled: no property below is stated for a size larger
   than the sizes the script itself uses.) *)
Definition Image_new (size : Z * Z) (color : rgb) : result image :=
  if (fst size <? 0) || (snd size <? 0) then Raise ValueError
  else if (INT_MAX <? fst size) || (INT_MAX <? snd size) then Raise OverflowError
  else Ok {| img_w := fst size; img_h := snd size; img_px := fun _ _ => color |}.

(* canvas.paste(tile, (x, y)): the box of the tile's size at (x, y) takes
   the tile's pixels; the canvas keeps its size. *)
Definition paste (canvas tile : image) (at_ : Z * Z) : image :=
  let '(x, y) := at_ in
  {| img_w := img_w canvas;
     img_h := img_h canvas;
     img_px := fun i j =>
       if (x <=? i) && (i <? x + img_w tile) && (y <=? j) && (j <? y + img_h tile)
       then img_px tile (i - x) (j - y)
       else img_px canvas i j |}.

(* --------------------------------------------------------------------- *)
(* The platform: network and resampling filter                            *)
(* --------------------------------------------------------------------- *)

Record response (A : Type) : Type := { status : Z; content : A }.
Arguments status {A} r.
Arguments content {A} r.

Record platform : Type := {
  (* requests.get(url, params=...) of the history service: None when the
     call raises (no connection, timeout); the content is None when the
     body is not JSON. *)
  http_history : pystr -> list (pystr * pystr) -> option (response (option json));
  (* requests.get(url) of a cover: None when the call raises; the content
     is the picture Image.open(...).convert("RGB") decodes, None when the
     bytes are not an image. *)
  http_cover : json -> option (response (option image));
  (* The pixels ImageOps.fit computes with the LANCZOS filter (floating
     point inside the library), for a source image and a target size. *)
  lanczos : image -> Z * Z -> Z -> Z -> rgb
}.

(* resp.raise_for_status() *)
Definition raise_for_status {A} (r : response A) : result unit :=
  if (400 <=? status r) && (status r <? 600) then Raise (HTTPError (status r))
  else Ok tt.

(* ImageOps.fit(im, size, method=LANCZOS): the ratios it computes divide by
   the two heights; resize then hands the size to C code, which takes C
   ints only, and refuses a size that is not positive; the result has
   exactly the requested size. *)
Definition ImageOps_fit (P : platform) (im : image) (size : Z * Z) : result image :=
  if (img_h im =? 0) || (snd size =? 0) then Raise ZeroDivisionError
  else if (INT_MAX <? fst size) || (INT_MAX <? snd size)
          || (fst size <? - INT_MAX - 1) || (snd size <? - INT_MAX - 1)
  then Raise OverflowError
  else if (fst size <=? 0) || (snd size <? 0) || (img_w im <=? 0) || (img_h im <? 0)
  then Raise ValueError
  else Ok {| img_w := fst size; img_h := snd size; img_px := lanczos P im size |}.

(* --------------------------------------------------------------------- *)
(* Effects: a trace of the calls that reach outside, and exceptions       *)
(* --------------------------------------------------------------------- *)

Inductive event : Type :=
  | EvMakedirs (path : pystr)
  | EvHistoryGet (url : pystr) (params : list (pystr * pystr)) (timeout : Z)
  | EvCoverGet (url : json) (timeout : Z)
  | EvSleep (seconds : Q)
  | EvSave (path : pystr) (canvas : image) (quality : Z) (optimize : bool)
  | EvPrint (path : pystr) (w h : Z) (albums : nat).

Definition M (A : Type) : Type := list event * result A.

Definition ret {A} (a : A) : M A := ([], Ok a).
Definition raise {A} (e : exn) : M A := ([], Raise e).
Definition emit (e : event) : M unit := ([e], Ok tt).
Definition lift {A} (r : result A) : M A := ([], r).

Definition bind {A B} (m : M A) (f : A -> M B) : M B :=
  match m with
  | (tr, Ok a) => let '(tr', r) := f a in (tr ++ tr', r)
  | (tr, Raise e) => (tr, Raise e)
  end.

(* try: body  except Exception: handler.  Every constructor of [exn] is a
   subclass of Exception. *)
Definition try_except {A} (body handler : M A) : M A :=
  match body with
  | (tr, Ok a) => (tr, Ok a)
  | (tr, Raise _) => let '(tr', r) := handler in (tr ++ tr', r)
  end.

Declare Scope M_scope.
Delimit Scope M_scope with M.
Notation "x <-! m ; k" := (bind m (fun x => k))
  (at level 100, m at next level, right associativity) : M_scope.
Notation "m ;! k" := (bind m (fun _ => k))
  (at level 100, right associativity) : M_scope.

(* ---- Settings ---- *)
Definition LAST_N_LISTENS : Z := 180.
Definition GRID : Z := 5.
Definition TILE : Z := 240.
Definition OUT_PATH : pystr := lit "assets/banner.jpg".
Definition OUT_DIR : pystr := lit "assets".
Definition FALLBACK_COLOR : rgb := (18, 18, 18).
Definition REQUEST_TIMEOUT : Z := 20.

Local Open Scope M_scope.

Definition lastfm_get_recent_tracks (P : platform) (user api_key : pystr) (limit : Z)
  : M json :=
  let url := lit "https://ws.audioscrobbler.com/2.0/" in
  let params :=
    [ (lit "method", lit "user.getrecenttracks");
      (lit "user", user);
      (lit "api_key", api_key);
      (lit "format", lit "json");
      (lit "limit", of_int limit);
      (lit "extended", lit "1") ] in
  emit (EvHistoryGet url params REQUEST_TIMEOUT) ;!
  match http_history P url params with
  | None => raise RequestException
  | Some r =>
      lift (raise_for_status r) ;!
      match content r with
      | None => raise JSONDecodeError
      | Some data => ret data
      end
  end.

Definition download_and_fit (P : platform) (url : json) (tile_size : Z) : M image :=
  try_except
    (emit (EvCoverGet url REQUEST_TIMEOUT) ;!
     match http_cover P url with
     | None => raise RequestException
     | Some resp =>
         lift (raise_for_status resp) ;!
         match content resp with
         | None => raise UnidentifiedImageError
         | Some im => lift (ImageOps_fit P im (tile_size, tile_size))
         end
     end)
    (lift (Image_new (tile_size, tile_size) FALLBACK_COLOR)).

(* --------------------------------------------------------------------- *)
(* Aggregation                                                            *)
(* --------------------------------------------------------------------- *)

Local Open Scope result_scope.

(* l[:n] on a sequence; a negative n counts from the end. *)
Definition slice_upto {A} (n : Z) (l : list A) : list A :=
  if n <? 0 then take (length l - Z.to_nat (- n)) l else take (Z.to_nat n) l.

(* v[:n]: lists and strings can be sliced; on the other values the
   subscript raises (TypeError; on a dict, KeyError from Python 3.12). *)
Definition py_slice_upto (n : Z) (v : json) : result json :=
  match v with
  | JArr l => Ok (JArr (slice_upto n l))
  | JStr s => Ok (JStr (slice_upto n s))
  | _ => Raise TypeError
  end.

(* A Counter keeps its keys in the order in which they were first
   inserted: the list of its items. *)
Definition counter : Type := list (pystr * nat).

(* c[k] += 1 *)
Fixpoint counter_incr (k : pystr) (c : counter) : counter :=
  match c with
  | [] => [(k, 1%nat)]
  | (k', n) :: r =>
      if decide (k = k') then (k', S n) :: r else (k', n) :: counter_incr k r
  end.

(* c[k] *)
Fixpoint counter_get (k : pystr) (c : counter) : nat :=
  match c with
  | [] => 0%nat
  | (k', n) :: r => if decide (k = k') then n else counter_get k r
  end.

(* sorted(items, key=count, reverse=True), stable: an item goes in front
   of the first one whose count is not larger than its own. *)
Fixpoint insert_desc (x : pystr * nat) (l : counter) : counter :=
  match l with
  | [] => [x]
  | y :: r => if (snd x <? snd y)%nat then y :: insert_desc x r else x :: l
  end.

Definition sorted_desc (c : counter) : counter := foldr insert_desc [] c.

(* c.most_common(n): the n items of largest count, largest first, items of
   equal count in the order first encountered. *)
Definition most_common (n : Z) (c : counter) : counter :=
  take (Z.to_nat n) (sorted_desc c).

(* The two accumulators of main's loop. *)
Record agg_state : Type := {
  album_counts : counter;
  album_image : gmap pystr json
}.

Definition agg_init : agg_state := {| album_counts := []; album_image := ∅ |}.

(* bool(key) for the str | None that safe_album_key returns *)
Definition key_truthy (key : option pystr) : bool :=
  match key with
  | None => false
  | Some k => truthy (JStr k)
  end.

(* One pass of the body of `for t in tracks`. *)
Definition agg_step (st : agg_state) (t : json) : result agg_state :=
  key <-? safe_album_key t;
  match key with
  | Some k =>
      if negb (key_truthy key) then Ok st else
      let counts := counter_incr k (album_counts st) in
      match album_image st !! k with
      | Some _ => Ok {| album_counts := counts; album_image := album_image st |}
      | None =>
          img_url <-? pick_best_image_url t;
          if truthy img_url
          then Ok {| album_counts := counts;
                     album_image := <[k := img_url]> (album_image st) |}
          else Ok {| album_counts := counts; album_image := album_image st |}
      end
  | None => Ok st
  end.

Fixpoint agg_loop (st : agg_state) (tracks : list json) : result agg_state :=
  match tracks with
  | [] => Ok st
  | t :: rest => st' <-? agg_step st t; agg_loop st' rest
  end.

(* [k for k, _ in album_counts.most_common(GRID * GRID)] *)
Definition top_albums_of (c : counter) : list pystr :=
  map fst (most_common (GRID * GRID) c).

(* --------------------------------------------------------------------- *)
(* Composition and main                                                   *)
(* --------------------------------------------------------------------- *)

Local Open Scope M_scope.

(* The tile of one selected album. *)
Definition resolve_tile (P : platform) (images : gmap pystr json) (album_key : pystr)
  : M image :=
  let url := default JNull (images !! album_key) in
  if truthy url then download_and_fit P url TILE
  else lift (Image_new (TILE, TILE) FALLBACK_COLOR).

(* for idx, album_key in enumerate(top_albums), from index idx on *)
Fixpoint paste_loop (P : platform) (images : gmap pystr json)
    (idx : Z) (albums : list pystr) (canvas : image) : M image :=
  match albums with
  | [] => ret canvas
  | album_key :: rest =>
      let row := idx / GRID in
      let col := idx mod GRID in
      let x := col * TILE in
      let y := row * TILE in
      tile <-! resolve_tile P images album_key;
      let canvas := paste canvas tile (x, y) in
      emit (EvSleep (5 # 100)) ;!
      paste_loop P images (idx + 1) rest canvas
  end.

(* data.get("recenttracks", {}).get("track", []) or [] *)
Definition tracks_of (data : json) : result json :=
  (rt <-? py_get data (lit "recenttracks") (JObj []);
   tr <-? py_get rt (lit "track") (JArr []);
   Ok (or_empty_list tr))%result.

(* Lines 110-127: the window, the counts and the images. *)
Definition aggregate (tracks : json) : result agg_state :=
  (window <-? py_slice_upto LAST_N_LISTENS tracks;
   items <-? py_iter window;
   agg_loop agg_init items)%result.

(* Lines 104-125 of main: fetch, check, count. *)
Definition collect (P : platform) (API_KEY USER : pystr) : M agg_state :=
  data <-! lastfm_get_recent_tracks P USER API_KEY 200;
  tracks <-! lift (tracks_of data);
  if negb (truthy tracks)
  then raise (RuntimeError (lit "No tracks returned. CHECK LASTFM_USER / API key"))
  else lift (aggregate tracks).

(* Lines 127-149 of main: select, paste, save, report; with a save that
   succeeds ([compose_on] below has the save that may fail). *)
Definition compose (P : platform) (st : agg_state) : M unit :=
  let top_albums := top_albums_of (album_counts st) in
  let W := GRID * TILE in
  let H := GRID * TILE in
  canvas <-! lift (Image_new (W, H) FALLBACK_COLOR);
  canvas <-! paste_loop P (album_image st) 0 top_albums canvas;
  emit (EvSave OUT_PATH canvas 92 true) ;!
  emit (EvPrint OUT_PATH W H (length top_albums)).

(* main, with the two file-system calls succeeding ([main_on] below is the
   run on any file system). *)
Definition main (P : platform) (API_KEY USER : pystr) : M unit :=
  emit (EvMakedirs OUT_DIR) ;!
  st <-! collect P API_KEY USER;
  compose P st.

(* The file system under the two calls of main that touch it: whether
   os.makedirs(path, exist_ok=True) and canvas.save(path, ...) succeed.
   A call that fails raises OSError (or one of its subclasses, such as
   IsADirectoryError) and leaves no file behind. *)
Record filesystem : Type := {
  fs_makedirs : pystr -> bool;
  fs_save : pystr -> bool
}.

(* A file system on which both calls succeed. *)
Definition working_fs : filesystem :=
  {| fs_makedirs := fun _ => true; fs_save := fun _ => true |}.

(* Lines 127-149 of main on any file system: the save may raise, and the
   report is printed only after it. *)
Definition compose_on (F : filesystem) (P : platform) (st : agg_state) : M unit :=
  let top_albums := top_albums_of (album_counts st) in
  let W := GRID * TILE in
  let H := GRID * TILE in
  canvas <-! lift (Image_new (W, H) FALLBACK_COLOR);
  canvas <-! paste_loop P (album_image st) 0 top_albums canvas;
  (if fs_save F OUT_PATH then emit (EvSave OUT_PATH canvas 92 true) else raise OSError) ;!
  emit (EvPrint OUT_PATH W H (length top_albums)).

(* main on any file system: the directory is made first, and a failure
   there ends the run before the request. [main] above is this run on a
   file system on which both calls succeed. *)
Definition main_on (F : filesystem) (P : platform) (API_KEY USER : pystr) : M unit :=
  (if fs_makedirs F OUT_DIR then emit (EvMakedirs OUT_DIR) else raise OSError) ;!
  st <-! collect P API_KEY USER;
  compose_on F P st.

(* os.environ[name] *)
Definition environ_get (environ : pystr -> option pystr) (name : pystr) : result pystr :=
  match environ name with
  | Some v => Ok v
  | None => Raise (KeyError name)
  end.

(* The module run as a script: the two settings are read from the
   environment when the module is loaded, then main() is called. *)
Definition script (environ : pystr -> option pystr) (P : platform) : M unit :=
  API_KEY <-! lift (environ_get environ (lit "LASTFM_API_KEY"));
  USER <-! lift (environ_get environ (lit "LASTFM_USER"));
  main P API_KEY USER.

Close Scope M_scope.
Close Scope result_scope.

(* ===================================================================== *)
(* Vocabulary of the properties                                           *)
(* ===================================================================== *)
(* Predicates and measures in which the properties are stated, and the
   sample tracks and platforms they are tried on. *)

(* ---- Names and keys ---- *)

(* The artist and album names safe_album_key reads off a track's fields
   (lines 60-72). *)
Definition artist_value (d : list (pystr * json)) : json :=
  match dict_get d (lit "artist") JNull with
  | JObj o => dict_get o (lit "name") JNull
  | JStr s => JStr s
  | _ => JNull
  end.

Definition album_value (d : list (pystr * json)) : json :=
  match dict_get d (lit "album") JNull with
  | JObj o => dict_get o (lit "#text") JNull
  | JStr s => JStr s
  | _ => JNull
  end.

(* Lines 74-82 on the two names. *)
Definition key_of_names (artist album : json) : result (option pystr) :=
  if negb (truthy artist) || negb (truthy album) then Ok None else
  rbind (py_strip artist) (fun artist' =>
  rbind (py_strip album) (fun album' =>
  if negb (truthy (JStr artist')) || negb (truthy (JStr album')) then Ok None
  else Ok (Some (artist' ++ key_sep ++ album')))).

(* A name is absent: the field is missing or null, or the name is empty. *)
Definition no_name (v : json) : Prop := truthy v = false.

(* A name is a string that trimming leaves empty. *)
Definition blank_name (v : json) : Prop := exists s, v = JStr s /\ strip s = [].

Definition is_str (v : json) : Prop := exists s, v = JStr s.

(* The two shapes of a name field: a plain string, or an object that
   carries the string under [field]. *)
Definition name_shape (field s : pystr) (v : json) : Prop :=
  v = JStr s \/ exists o, v = JObj o /\ dict_lookup field o = Some (JStr s).

(* The album key of an event, when it has one. *)
Definition event_key (t : json) : option pystr :=
  match safe_album_key t with
  | Ok (Some k) => Some k
  | _ => None
  end.

(* An event the loop of the aggregator gets through: both helpers
   return on it. *)
Definition processable (t : json) : Prop :=
  (exists key, safe_album_key t = Ok key) /\
  (exists u, pick_best_image_url t = Ok u).

(* ---- Artwork ---- *)

(* The "#text" of a candidate is [u]. *)
Definition url_field (item u : json) : Prop := py_get item (lit "#text") JNull = Ok u.

(* [t] yields no artwork URL for the key [k]: it has another key or none,
   or its candidates give no URL. *)
Definition no_url_for (k : pystr) (t : json) : Prop :=
  safe_album_key t = Ok (Some k) ->
  forall u, pick_best_image_url t = Ok u -> truthy u = false.

(* Every pixel of the image has the colour [c]. *)
Definition uniform (c : rgb) (im : image) : Prop := forall x y, img_px im x y = c.

(* A tile is the fitted artwork of some picture, or the placeholder. *)
Definition artwork_or_placeholder (P : platform) (tile : image) : Prop :=
  (exists im, img_px tile = lanczos P im (TILE, TILE)) \/
  uniform FALLBACK_COLOR tile.

(* The tile pasted for an album. *)
Definition tile_of (P : platform) (images : gmap pystr json) (k : pystr) (tile : image)
  : Prop :=
  snd (resolve_tile P images k) = Ok tile.

(* ---- Traces ---- *)

(* The one request of lastfm_get_recent_tracks. *)
Definition history_request (user api_key : pystr) (limit : Z) : event :=
  EvHistoryGet (lit "https://ws.audioscrobbler.com/2.0/")
    [ (lit "method", lit "user.getrecenttracks");
      (lit "user", user);
      (lit "api_key", api_key);
      (lit "format", lit "json");
      (lit "limit", of_int limit);
      (lit "extended", lit "1") ]
    REQUEST_TIMEOUT.

(* The events of a trace that are work after the fetch: cover requests,
   delays, the saved file, the report. *)
Definition after_fetch (e : event) : bool :=
  match e with
  | EvCoverGet _ _ | EvSleep _ | EvSave _ _ _ _ | EvPrint _ _ _ _ => true
  | _ => false
  end.

(* The request made to resolve the tile of an album: one when a URL was
   recorded for it, none otherwise. *)
Definition cover_requests (images : gmap pystr json) (album_key : pystr) : list event :=
  let url := default JNull (images !! album_key) in
  if truthy url then [EvCoverGet url REQUEST_TIMEOUT] else [].

(* The trace of the loop: per album, its request if any, then one delay. *)
Definition loop_trace (images : gmap pystr json) (albums : list pystr) : list event :=
  flat_map (fun k => cover_requests images k ++ [EvSleep (5 # 100)]) albums.

Definition is_sleep (e : event) : bool :=
  match e with EvSleep _ => true | _ => false end.

Definition sleeps (tr : list event) : nat := length (filter is_sleep tr).

(* ---- The canvas ---- *)

(* The canvas the composer starts from. *)
Definition blank_canvas : image :=
  {| img_w := GRID * TILE; img_h := GRID * TILE;
     img_px := fun _ _ => FALLBACK_COLOR |}.

(* The grid cell a pixel of the canvas lies in, counted row by row. *)
Definition cell_of (x y : Z) : Z := (y / TILE) * GRID + x / TILE.

(* ---- The selection ---- *)

(* The number of events of the window that have the key [k]. *)
Fixpoint plays (k : pystr) (win : list json) : nat :=
  match win with
  | [] => 0
  | t :: rest => (if decide (event_key t = Some k) then 1 else 0) + plays k rest
  end.

(* The position in the window of the first event that has the key [k]
   (the length of the window when there is none). *)
Fixpoint first_pos (k : pystr) (win : list json) : nat :=
  match win with
  | [] => 0
  | t :: rest => if decide (event_key t = Some k) then 0 else S (first_pos k rest)
  end.

(* [a] is selected before [b]: more plays, or as many and met first. *)
Definition ranks_before (win : list json) (a b : pystr) : Prop :=
  (plays b win < plays a win)%nat \/
  (plays a win = plays b win /\ (first_pos a win < first_pos b win)%nat).

(* What the counter holds once the loop has gone through the window. *)
Definition counts_inv (win : list json) (c : counter) : Prop :=
  NoDup c.*1 /\
  (forall k, counter_get k c = plays k win) /\
  (forall k, k ∈ c.*1 <-> (1 <= plays k win)%nat) /\
  (forall i j a b, (i < j)%nat -> c.*1 !! i = Some a -> c.*1 !! j = Some b ->
     (first_pos a win < first_pos b win)%nat) /\
  (length c <= length win)%nat.

(* [x] comes before [y] in the counter. *)
Definition before (c : counter) (x y : pystr * nat) : Prop :=
  exists i j : nat, (i < j)%nat /\ c !! i = Some x /\ c !! j = Some y.

(* The order most_common sorts the items of [c] by: the larger count
   first, and among equal counts the item inserted first. *)
Definition item_before (c : counter) (x y : pystr * nat) : Prop :=
  (snd y < snd x)%nat \/ (snd x = snd y /\ before c x y).

(* ---- Further measures ---- *)

(* The string is made of whitespace only. *)
Definition all_space (s : pystr) : bool := forallb isspace s.

(* The sum of the counts of a counter. *)
Definition total (c : counter) : nat := foldr (fun x acc => (snd x + acc)%nat) 0%nat c.

(* The number of events of the window that have an album key. *)
Definition keyed_events (win : list json) : nat :=
  length (filter (fun t => is_Some (event_key t)) win).

Definition is_save (e : event) : bool :=
  match e with EvSave _ _ _ _ => true | _ => false end.

Definition saves (tr : list event) : nat := length (filter is_save tr).

Definition is_cover_get (e : event) : bool :=
  match e with EvCoverGet _ _ => true | _ => false end.

Definition cover_gets (tr : list event) : nat := length (filter is_cover_get tr).

(* The tile Image.new gives in place of an artwork. *)
Definition placeholder (tile_size : Z) : image :=
  {| img_w := tile_size; img_h := tile_size; img_px := fun _ _ => FALLBACK_COLOR |}.

(* What the two dicts of the loop hold together: a key with a recorded
   URL has been counted, and the URL is not empty. *)
Definition images_inv (st : agg_state) : Prop :=
  forall k u, album_image st !! k = Some u ->
    truthy u = true /\ (1 <= counter_get k (album_counts st))%nat.

(* ---- Sample tracks and platforms ---- *)

(* A track carrying the two names as objects, the shape the service sends. *)
Definition track_of (artist album : pystr) : json :=
  JObj [ (lit "artist", JObj [(lit "name", JStr artist)]);
         (lit "album", JObj [(lit "#text", JStr album)]) ].

(* A listen as the service sends it: names as objects, and the candidate
   URLs from the smallest to the largest picture. *)
Definition listen (artist album : pystr) (urls : list pystr) : json :=
  JObj [ (lit "artist", JObj [(lit "name", JStr artist)]);
         (lit "album", JObj [(lit "#text", JStr album)]);
         (lit "image", JArr (map (fun u => JObj [(lit "#text", JStr u)]) urls)) ].

(* A platform without network: every request raises. *)
Definition offline : platform :=
  {| http_history := fun _ _ => None;
     http_cover := fun _ => None;
     lanczos := fun _ _ _ _ => (0, 0, 0) |}.

(* A platform whose history service answers 200 with the given body. *)
Definition answering (data : json) : platform :=
  {| http_history := fun _ _ => Some {| status := 200; content := Some data |};
     http_cover := fun _ => None;
     lanczos := fun _ _ _ _ => (0, 0, 0) |}.

(* ===================================================================== *)
(* Properties                                                             *)
(* ===================================================================== *)

(* --------------------------------------------------------------------- *)
(* Names and keys                                                         *)
(* --------------------------------------------------------------------- *)

Lemma safe_album_key_names d :
  safe_album_key (JObj d) = key_of_names (artist_value d) (album_value d).
Proof.
  unfold safe_album_key, artist_value, album_value, key_of_names.
  cbn [py_get rbind].
  destruct (dict_get d (lit "artist") JNull), (dict_get d (lit "album") JNull);
    reflexivity.
Qed.

Lemma truthy_str s : truthy (JStr s) = false <-> s = [].
Proof. destruct s; simpl; split; congruence. Qed.

(* Closes a goal on [decide (... = [] \/ ... = [])] when one side is
   visibly empty. *)
Ltac blank_case :=
  let H := fresh "Hblank" in
  case_decide as H; [done | exfalso; apply H; auto].

Lemma key_of_names_str sa sal :
  key_of_names (JStr sa) (JStr sal) =
  if decide (strip sa = [] \/ strip sal = []) then Ok None
  else Ok (Some (strip sa ++ key_sep ++ strip sal)).
Proof.
  unfold key_of_names.
  destruct sa as [|a sa]; [cbn; blank_case |].
  destruct sal as [|b sal]; [cbn; blank_case |].
  cbn [truthy negb orb py_strip rbind].
  destruct (strip (a :: sa)) as [|x xs] eqn:Ea; [cbn; blank_case |].
  destruct (strip (b :: sal)) as [|y ys] eqn:Eb; [cbn; blank_case |].
  cbn. case_decide as H; [destruct H; discriminate | done].
Qed.

(* A key that is returned is never the empty string. *)
Lemma safe_album_key_nonempty t k : safe_album_key t = Ok (Some k) -> k <> [].
Proof.
  destruct t; try discriminate. rewrite safe_album_key_names.
  unfold key_of_names.
  destruct (negb (truthy (artist_value fields)) || negb (truthy (album_value fields)));
    [discriminate |].
  destruct (py_strip (artist_value fields)) as [a|]; [|discriminate].
  destruct (py_strip (album_value fields)) as [b|]; [|discriminate].
  simpl. destruct (_ || _); [discriminate |].
  intros [= <-]. destruct a; discriminate.
Qed.

Lemma agg_loop_app st l1 l2 :
  agg_loop st (l1 ++ l2) = rbind (agg_loop st l1) (fun st' => agg_loop st' l2).
Proof.
  revert st; induction l1 as [|t l1 IH]; intros st; simpl; [done |].
  destruct (agg_step st t); simpl; [apply IH | done].
Qed.

(** C2: an event whose artist or album name is absent, or whose artist or
    album string is empty once trimmed, gets no album key; the loop of main
    leaves both accumulators as they were and goes on with the next event,
    so the run aggregates exactly as if the event were not in the window.
    (Trimming is reached only when both names are present, and is a method
    of strings: the names are then strings, as in the data model.) *)
Theorem blank_event_excluded (d : list (pystr * json)) :
  no_name (artist_value d) \/ no_name (album_value d) \/
  (is_str (artist_value d) /\ is_str (album_value d) /\
   (blank_name (artist_value d) \/ blank_name (album_value d))) ->
  safe_album_key (JObj d) = Ok None /\
  (forall st, agg_step st (JObj d) = Ok st) /\
  (forall st l1 l2, agg_loop st (l1 ++ JObj d :: l2) = agg_loop st (l1 ++ l2)).
Proof.
  intros H.
  assert (Hk : safe_album_key (JObj d) = Ok None).
  { rewrite safe_album_key_names.
    destruct H as [H | [H | ([sa Ha] & [sal Hal] & H)]].
    - unfold key_of_names. unfold no_name in H. by rewrite H.
    - unfold key_of_names. unfold no_name in H. rewrite H.
      by rewrite orb_true_r.
    - rewrite Ha, Hal in *. rewrite key_of_names_str.
      case_decide as Hd; [done |]. exfalso; apply Hd.
      destruct H as [(s & [= <-] & Hs) | (s & [= <-] & Hs)]; auto. }
  assert (Hs : forall st, agg_step st (JObj d) = Ok st).
  { intros st. unfold agg_step. by rewrite Hk. }
  split; [done |]. split; [done |].
  intros st l1 l2. rewrite !agg_loop_app.
  destruct (agg_loop st l1) as [st'|]; simpl; [|done].
  by rewrite Hs.
Qed.

Lemma blank_event_excluded_witness :
  let d := [(lit "artist", JStr (lit "  ")); (lit "album", JStr (lit "X"))] in
  safe_album_key (JObj d) = Ok None /\
  (forall st, agg_step st (JObj d) = Ok st) /\
  (forall st l1 l2, agg_loop st (l1 ++ JObj d :: l2) = agg_loop st (l1 ++ l2)).
Proof.
  intros d. apply (blank_event_excluded d).
  right; right. split; [by exists (lit "  ") |].
  split; [by exists (lit "X") |].
  left. exists (lit "  "). split; reflexivity.
Defined.

Lemma dict_get_lookup d k v dflt : dict_lookup k d = Some v -> dict_get d k dflt = v.
Proof. unfold dict_get. by intros ->. Qed.

(** C5: the artist and the album of a track are each accepted as a plain
    string or as an object carrying the name in a field ("name" for the
    artist, "#text" for the album); the name read is the same string in
    either shape, and so is the album key, which depends on the two names
    only. *)
Theorem name_shapes_accepted (d : list (pystr * json)) (a al : json) (sa sal : pystr) :
  dict_lookup (lit "artist") d = Some a ->
  dict_lookup (lit "album") d = Some al ->
  name_shape (lit "name") sa a ->
  name_shape (lit "#text") sal al ->
  artist_value d = JStr sa /\
  album_value d = JStr sal /\
  safe_album_key (JObj d) =
    if decide (strip sa = [] \/ strip sal = []) then Ok None
    else Ok (Some (strip sa ++ key_sep ++ strip sal)).
Proof.
  intros Ha Hal Sa Sal.
  assert (Ea : artist_value d = JStr sa).
  { unfold artist_value. rewrite (dict_get_lookup _ _ _ _ Ha).
    destruct Sa as [-> | (o & -> & Ho)]; [done |].
    by rewrite (dict_get_lookup _ _ _ _ Ho). }
  assert (Eal : album_value d = JStr sal).
  { unfold album_value. rewrite (dict_get_lookup _ _ _ _ Hal).
    destruct Sal as [-> | (o & -> & Ho)]; [done |].
    by rewrite (dict_get_lookup _ _ _ _ Ho). }
  split; [done |]. split; [done |].
  rewrite safe_album_key_names, Ea, Eal. apply key_of_names_str.
Qed.

Lemma name_shapes_accepted_witness :
  let d := [ (lit "artist", JObj [(lit "name", JStr (lit " Low "))]);
             (lit "album", JStr (lit "Hey What")) ] in
  artist_value d = JStr (lit " Low ") /\
  album_value d = JStr (lit "Hey What") /\
  safe_album_key (JObj d) = Ok (Some (lit "Low" ++ key_sep ++ lit "Hey What")).
Proof.
  intros d.
  apply (name_shapes_accepted d
           (JObj [(lit "name", JStr (lit " Low "))]) (JStr (lit "Hey What"))
           (lit " Low ") (lit "Hey What")).
  - reflexivity.
  - reflexivity.
  - right. eexists. split; reflexivity.
  - left. reflexivity.
Defined.

(** C10: the album key is not injective. The artist "A — B" with the album
    "C" and the artist "A" with the album "B — C" are different pairs with
    the same key "A — B — C", and the two events are counted as one album
    with two plays. *)
Theorem album_key_not_injective :
  let dash := [0x2014%N] in
  let artist1 := lit "A " ++ dash ++ lit " B" in
  let album1 := lit "C" in
  let artist2 := lit "A" in
  let album2 := lit "B " ++ dash ++ lit " C" in
  let key := lit "A " ++ dash ++ lit " B " ++ dash ++ lit " C" in
  (artist1, album1) <> (artist2, album2) /\
  safe_album_key (track_of artist1 album1) = Ok (Some key) /\
  safe_album_key (track_of artist2 album2) = Ok (Some key) /\
  exists st,
    aggregate (JArr [track_of artist1 album1; track_of artist2 album2]) = Ok st /\
    album_counts st = [(key, 2%nat)].
Proof.
  cbv zeta. split; [discriminate |].
  split; [reflexivity |]. split; [reflexivity |].
  eexists. split; [vm_compute; reflexivity | reflexivity].
Qed.

(* --------------------------------------------------------------------- *)
(* The artwork URL of a track                                             *)
(* --------------------------------------------------------------------- *)

Lemma elem_of_rev_inv {A} (x : A) (l : list A) : x ∈ rev l -> x ∈ l.
Proof. rewrite !list_elem_of_In. apply in_rev. Qed.

Lemma scan_images_skip l rest :
  (forall it, it ∈ l -> exists u, url_field it u /\ truthy u = false) ->
  scan_images (l ++ rest) = scan_images rest.
Proof.
  induction l as [|it l IH]; intros H; [done |].
  destruct (H it) as (u & Hu & Hf); [left |].
  cbn [app scan_images]. unfold url_field in Hu. rewrite Hu. cbn [rbind].
  rewrite Hf. apply IH. intros it' Hin. apply H. by right.
Qed.

(** C6: for a track whose artwork candidates are a list, the URL selected
    is that of the first candidate with a non-empty URL met when the list
    is scanned from its end backward, that is the last such candidate of
    the list; when no candidate has a non-empty URL, none is selected. *)
Theorem pick_best_is_last_nonempty (d : list (pystr * json)) (images : list json) :
  dict_lookup (lit "image") d = Some (JArr images) ->
  (forall l1 item l2 u,
     images = l1 ++ item :: l2 ->
     url_field item u -> truthy u = true ->
     (forall it, it ∈ l2 -> exists u', url_field it u' /\ truthy u' = false) ->
     pick_best_image_url (JObj d) = Ok u) /\
  ((forall it, it ∈ images -> exists u', url_field it u' /\ truthy u' = false) ->
   pick_best_image_url (JObj d) = Ok JNull).
Proof.
  intros Hd.
  assert (E : pick_best_image_url (JObj d) = scan_images (rev images)).
  { unfold pick_best_image_url. cbn [py_get rbind].
    rewrite (dict_get_lookup _ _ _ _ Hd). unfold or_empty_list.
    destruct images; reflexivity. }
  split.
  - intros l1 item l2 u -> Hu Ht Hl2. rewrite E.
    rewrite rev_app_distr. cbn [rev]. rewrite <- !app_assoc.
    rewrite scan_images_skip.
    + cbn [app scan_images]. unfold url_field in Hu. rewrite Hu. cbn [rbind].
      by rewrite Ht.
    + intros it Hin. apply Hl2. by apply elem_of_rev_inv.
  - intros Hall. rewrite E.
    rewrite <- (app_nil_r (rev images)). rewrite scan_images_skip; [done |].
    intros it Hin. apply Hall. by apply elem_of_rev_inv.
Qed.

Lemma pick_best_is_last_nonempty_witness :
  let small := JObj [(lit "size", JStr (lit "small")); (lit "#text", JStr (lit "http://a/34.png"))] in
  let large := JObj [(lit "size", JStr (lit "large")); (lit "#text", JStr (lit "http://a/174.png"))] in
  let mega := JObj [(lit "size", JStr (lit "mega")); (lit "#text", JStr (lit ""))] in
  let d := [(lit "name", JStr (lit "Song")); (lit "image", JArr [small; large; mega])] in
  pick_best_image_url (JObj d) = Ok (JStr (lit "http://a/174.png")).
Proof.
  intros small large mega d.
  apply (proj1 (pick_best_is_last_nonempty d [small; large; mega] eq_refl)
           [small] large [mega] (JStr (lit "http://a/174.png"))).
  - reflexivity.
  - reflexivity.
  - reflexivity.
  - intros it Hin. apply list_elem_of_singleton in Hin as ->.
    exists (JStr []). split; reflexivity.
Defined.

(* --------------------------------------------------------------------- *)
(* The artwork resolver                                                   *)
(* --------------------------------------------------------------------- *)

Lemma Image_new_ok w h c :
  0 <= w <= INT_MAX -> 0 <= h <= INT_MAX ->
  Image_new (w, h) c = Ok {| img_w := w; img_h := h; img_px := fun _ _ => c |}.
Proof.
  intros Hw Hh. unfold Image_new. cbn [fst snd].
  destruct (Z.ltb_spec w 0); [lia |]. destruct (Z.ltb_spec h 0); [lia |].
  destruct (Z.ltb_spec INT_MAX w); [lia |].
  destruct (Z.ltb_spec INT_MAX h); [lia | done].
Qed.

Lemma ImageOps_fit_size P im size tile :
  ImageOps_fit P im size = Ok tile ->
  img_w tile = fst size /\ img_h tile = snd size /\ img_px tile = lanczos P im size.
Proof.
  unfold ImageOps_fit. destruct (_ || _); [discriminate |].
  destruct (_ || _); [discriminate |].
  destruct (_ || _); [discriminate |]. by intros [= <-].
Qed.

(* The two ways out of download_and_fit once the placeholder of the
   handler can be made: the placeholder, or the tile the fit returned. *)
Lemma download_and_fit_cases P url tile_size fb :
  Image_new (tile_size, tile_size) FALLBACK_COLOR = Ok fb ->
  download_and_fit P url tile_size = ([EvCoverGet url REQUEST_TIMEOUT], Ok fb) \/
  exists resp im tile,
    http_cover P url = Some resp /\ raise_for_status resp = Ok tt /\
    content resp = Some im /\
    ImageOps_fit P im (tile_size, tile_size) = Ok tile /\
    download_and_fit P url tile_size = ([EvCoverGet url REQUEST_TIMEOUT], Ok tile).
Proof.
  intros Hnew.
  unfold download_and_fit, try_except, bind, emit, lift, raise.
  rewrite Hnew.
  destruct (http_cover P url) as [resp|] eqn:Hc; [| by left].
  destruct (raise_for_status resp) as [[]|e] eqn:Hs; [| by left].
  destruct (content resp) as [im|] eqn:Him; [| by left].
  destruct (ImageOps_fit P im (tile_size, tile_size)) as [tile|e] eqn:Hfit;
    [| by left].
  right. by exists resp, im, tile.
Qed.

Lemma TILE_fits : 0 <= TILE <= INT_MAX.
Proof. unfold TILE, INT_MAX. lia. Qed.

(** C3: whatever the URL and whatever the platform answers (the request
    raises, the status is an error, the bytes are not an image, the fit
    raises, or all succeed), download_and_fit returns, with one request
    made, a tile of exactly tile_size x tile_size pixels: the fitted
    artwork, or a tile uniformly of the fallback colour. Nothing is raised
    to the caller. This is for a tile size from 0 to the TILE of the
    script: a negative size, and one too large for the imaging library,
    make the handler itself raise. *)
Theorem download_and_fit_absorbs (P : platform) (url : json) (tile_size : Z) :
  0 <= tile_size <= TILE ->
  exists tile,
    download_and_fit P url tile_size = ([EvCoverGet url REQUEST_TIMEOUT], Ok tile) /\
    img_w tile = tile_size /\
    img_h tile = tile_size /\
    ((exists resp im,
        http_cover P url = Some resp /\ raise_for_status resp = Ok tt /\
        content resp = Some im /\
        img_px tile = lanczos P im (tile_size, tile_size)) \/
     uniform FALLBACK_COLOR tile).
Proof.
  intros Ht.
  assert (Hfits : 0 <= tile_size <= INT_MAX) by (pose proof TILE_fits; lia).
  pose proof (Image_new_ok tile_size tile_size FALLBACK_COLOR Hfits Hfits) as Hnew.
  destruct (download_and_fit_cases P url tile_size _ Hnew)
    as [E | (resp & im & tile & Hc & Hs & Him & Hfit & E)].
  - eexists. split; [exact E |]. split; [done |]. split; [done |].
    right. by intros x y.
  - apply ImageOps_fit_size in Hfit as (Hw & Hh & Hpx).
    exists tile. split; [exact E |]. split; [done |]. split; [done |].
    left. by exists resp, im.
Qed.

Lemma download_and_fit_absorbs_witness :
  exists tile,
    download_and_fit offline (JStr (lit "http://a/174.png")) TILE
      = ([EvCoverGet (JStr (lit "http://a/174.png")) REQUEST_TIMEOUT], Ok tile) /\
    img_w tile = TILE /\
    img_h tile = TILE /\
    ((exists resp im,
        http_cover offline (JStr (lit "http://a/174.png")) = Some resp /\
        raise_for_status resp = Ok tt /\
        content resp = Some im /\
        img_px tile = lanczos offline im (TILE, TILE)) \/
     uniform FALLBACK_COLOR tile).
Proof.
  apply (download_and_fit_absorbs offline (JStr (lit "http://a/174.png")) TILE).
  unfold TILE. lia.
Defined.

(* A negative size is refused by Image.new also in the handler, and so is
   a size that does not fit a C int: the exception of the handler reaches
   the caller. *)
Example download_and_fit_negative_size :
  snd (download_and_fit offline JNull (-1)) = Raise ValueError.
Proof. reflexivity. Qed.

Example download_and_fit_oversize :
  snd (download_and_fit offline JNull (2 ^ 31)) = Raise OverflowError.
Proof. reflexivity. Qed.

(* --------------------------------------------------------------------- *)
(* The fetch and its fatal cases                                          *)
(* --------------------------------------------------------------------- *)

Lemma lastfm_get_trace P user api_key limit :
  fst (lastfm_get_recent_tracks P user api_key limit)
  = [history_request user api_key limit].
Proof.
  unfold lastfm_get_recent_tracks, bind, emit, lift, raise, ret, history_request.
  destruct (http_history P _ _) as [r|]; [| done].
  destruct (raise_for_status r) as [[]|]; [| done].
  by destruct (content r).
Qed.

Lemma lastfm_get_eq P user api_key limit :
  lastfm_get_recent_tracks P user api_key limit
  = ([history_request user api_key limit],
     snd (lastfm_get_recent_tracks P user api_key limit)).
Proof.
  rewrite <- (lastfm_get_trace P user api_key limit).
  by destruct (lastfm_get_recent_tracks P user api_key limit).
Qed.

(** C4: when the history service answers with zero events (the track list
    is empty, null or missing), main raises RuntimeError right after the
    fetch: the trace holds the directory creation and the one history
    request, so no aggregation result is used, no cover is requested, no
    canvas is saved and no file is written. *)
Theorem no_tracks_is_fatal (P : platform) (API_KEY USER : pystr) (data : json) :
  snd (lastfm_get_recent_tracks P USER API_KEY 200) = Ok data ->
  tracks_of data = Ok (JArr []) ->
  main P API_KEY USER =
    ([EvMakedirs OUT_DIR; history_request USER API_KEY 200],
     Raise (RuntimeError (lit "No tracks returned. CHECK LASTFM_USER / API key"))) /\
  filter after_fetch (fst (main P API_KEY USER)) = [].
Proof.
  intros Hdata Htracks.
  assert (E : main P API_KEY USER =
    ([EvMakedirs OUT_DIR; history_request USER API_KEY 200],
     Raise (RuntimeError (lit "No tracks returned. CHECK LASTFM_USER / API key")))).
  { unfold main, collect. rewrite lastfm_get_eq, Hdata.
    unfold bind, emit, lift, raise. rewrite Htracks. reflexivity. }
  split; [exact E |]. rewrite E. reflexivity.
Qed.

Lemma no_tracks_is_fatal_witness :
  let data := JObj [(lit "recenttracks", JObj [(lit "track", JArr [])])] in
  main (answering data) (lit "k") (lit "u") =
    ([EvMakedirs OUT_DIR; history_request (lit "u") (lit "k") 200],
     Raise (RuntimeError (lit "No tracks returned. CHECK LASTFM_USER / API key"))) /\
  filter after_fetch (fst (main (answering data) (lit "k") (lit "u"))) = [].
Proof.
  intros data.
  apply (no_tracks_is_fatal (answering data) (lit "k") (lit "u") data); reflexivity.
Defined.

(* --------------------------------------------------------------------- *)
(* The loop of the aggregator                                             *)
(* --------------------------------------------------------------------- *)

(* What one pass of the loop does, read off a pass that did not raise. *)
Lemma agg_step_inv st t st' :
  agg_step st t = Ok st' ->
  (safe_album_key t = Ok None /\ st' = st) \/
  (exists k,
     safe_album_key t = Ok (Some k) /\
     album_counts st' = counter_incr k (album_counts st) /\
     ((exists v, album_image st !! k = Some v /\ album_image st' = album_image st) \/
      (album_image st !! k = None /\
       exists u, pick_best_image_url t = Ok u /\
         album_image st' =
           if truthy u then <[k := u]> (album_image st) else album_image st))).
Proof.
  unfold agg_step.
  destruct (safe_album_key t) as [[k|]|e] eqn:Hk; cbn [rbind]; [| | discriminate].
  - pose proof (safe_album_key_nonempty _ _ Hk) as Hne.
    assert (Ht : key_truthy (Some k) = true) by (destruct k; [done | reflexivity]).
    rewrite Ht. cbn [negb].
    destruct (album_image st !! k) as [v|] eqn:Hi.
    + intros [= <-]. right. exists k. split; [done |]. split; [done |].
      left. by exists v.
    + destruct (pick_best_image_url t) as [u|e] eqn:Hp; cbn [rbind]; [| discriminate].
      intros H. right. exists k. split; [done |].
      destruct (truthy u) eqn:Hu; injection H as <-; (split; [done |]);
        right; (split; [done |]); exists u; by rewrite Hu.
  - intros [= <-]. by left.
Qed.

Lemma agg_step_keeps_image st t st' k u :
  agg_step st t = Ok st' ->
  album_image st !! k = Some u -> album_image st' !! k = Some u.
Proof.
  intros H Hk.
  destruct (agg_step_inv _ _ _ H) as [[_ ->] | (k' & _ & _ & [(v & _ & ->) | (Hn & u' & _ & ->)])];
    try done.
  destruct (truthy u'); [| done].
  rewrite lookup_insert_ne; [done |]. intros ->. congruence.
Qed.

Lemma agg_loop_keeps_image ts st st' k u :
  agg_loop st ts = Ok st' ->
  album_image st !! k = Some u -> album_image st' !! k = Some u.
Proof.
  revert st. induction ts as [|t ts IH]; intros st; cbn [agg_loop].
  - by intros [= <-].
  - destruct (agg_step st t) as [st1|] eqn:Hs; cbn [rbind]; [| discriminate].
    intros H Hk. apply (IH st1 H). by apply (agg_step_keeps_image st t).
Qed.

Lemma agg_step_still_none st t st' k :
  agg_step st t = Ok st' -> no_url_for k t ->
  album_image st !! k = None -> album_image st' !! k = None.
Proof.
  intros H Hno Hk.
  destruct (agg_step_inv _ _ _ H) as [[_ ->] | (k' & Hk' & _ & [(v & _ & ->) | (Hn & u' & Hp & ->)])];
    try done.
  destruct (truthy u') eqn:Hu; [| done].
  rewrite lookup_insert_ne; [done |]. intros ->.
  specialize (Hno Hk' _ Hp). congruence.
Qed.

Lemma agg_step_records st t st' k u :
  agg_step st t = Ok st' ->
  safe_album_key t = Ok (Some k) -> pick_best_image_url t = Ok u -> truthy u = true ->
  album_image st !! k = None -> album_image st' !! k = Some u.
Proof.
  intros H Hk Hp Hu Hn.
  destruct (agg_step_inv _ _ _ H) as [[E _] | (k' & Hk' & _ & Hi)]; [congruence |].
  assert (k' = k) as -> by congruence.
  destruct Hi as [(v & Hv & _) | (_ & u' & Hp' & ->)]; [congruence |].
  assert (u' = u) as -> by congruence.
  rewrite Hu. apply lookup_insert_eq.
Qed.

(** C8: in the loop of the aggregator, an artwork URL recorded for a key
    is never overwritten by the events that follow; and, for a key with no
    URL recorded yet, the URL recorded at the end is the one selected from
    the earliest event of that key whose candidates yield a non-empty URL
    (none is recorded when no event of the key yields one). *)
Theorem first_artwork_kept (ts : list json) (st0 st : agg_state) (k : pystr) :
  agg_loop st0 ts = Ok st ->
  (forall u, album_image st0 !! k = Some u -> album_image st !! k = Some u) /\
  (album_image st0 !! k = None ->
   (forall l1 t l2 u,
      ts = l1 ++ t :: l2 ->
      safe_album_key t = Ok (Some k) ->
      pick_best_image_url t = Ok u -> truthy u = true ->
      (forall t', t' ∈ l1 -> no_url_for k t') ->
      album_image st !! k = Some u) /\
   ((forall t, t ∈ ts -> no_url_for k t) -> album_image st !! k = None)).
Proof.
  intros Hloop. split.
  { intros u. by apply (agg_loop_keeps_image ts st0). }
  intros Hnone. split.
  - intros l1 t l2 u -> Hk Hp Hu Hl1.
    revert st0 Hloop Hnone. induction l1 as [|t1 l1 IH]; intros st0 Hloop Hnone.
    + cbn [app agg_loop] in Hloop.
      destruct (agg_step st0 t) as [st1|] eqn:Hs; cbn [rbind] in Hloop; [| discriminate].
      apply (agg_loop_keeps_image l2 st1 st k u Hloop).
      by apply (agg_step_records st0 t).
    + cbn [app agg_loop] in Hloop.
      destruct (agg_step st0 t1) as [st1|] eqn:Hs; cbn [rbind] in Hloop; [| discriminate].
      apply (IH (fun t' Hin => Hl1 t' (list_elem_of_further _ _ _ Hin)) st1 Hloop).
      apply (agg_step_still_none st0 t1 st1 k Hs); [| done].
      apply Hl1. left.
  - intros Hall. revert st0 Hloop Hnone.
    induction ts as [|t ts IH]; intros st0 Hloop Hnone; cbn [agg_loop] in Hloop.
    + by injection Hloop as <-.
    + destruct (agg_step st0 t) as [st1|] eqn:Hs; cbn [rbind] in Hloop; [| discriminate].
      apply (IH (fun t' Hin => Hall t' (list_elem_of_further _ _ _ Hin)) st1 Hloop).
      apply (agg_step_still_none st0 t st1 k Hs); [| done].
      apply Hall. left.
Qed.

Lemma first_artwork_kept_witness :
  let ts := [ listen (lit "A") (lit "X") [lit ""];
              listen (lit "A") (lit "X") [lit "v1"; lit "v2"];
              listen (lit "A") (lit "X") [lit "w"] ] in
  exists st,
    agg_loop agg_init ts = Ok st /\
    album_image st !! (lit "A" ++ key_sep ++ lit "X") = Some (JStr (lit "v2")).
Proof.
  intros ts.
  assert (H : exists st, agg_loop agg_init ts = Ok st)
    by (eexists; vm_compute; reflexivity).
  destruct H as [st H]. exists st. split; [exact H |].
  apply (proj1 (proj2 (first_artwork_kept ts agg_init st
                         (lit "A" ++ key_sep ++ lit "X") H) (lookup_empty _))
           [listen (lit "A") (lit "X") [lit ""]]
           (listen (lit "A") (lit "X") [lit "v1"; lit "v2"])
           [listen (lit "A") (lit "X") [lit "w"]]
           (JStr (lit "v2"))).
  - reflexivity.
  - reflexivity.
  - reflexivity.
  - reflexivity.
  - intros t' Hin. apply list_elem_of_singleton in Hin as ->.
    intros _ u Hu. vm_compute in Hu. by injection Hu as <-.
Defined.

(* --------------------------------------------------------------------- *)
(* The composer                                                           *)
(* --------------------------------------------------------------------- *)

Lemma resolve_tile_ok P images k :
  exists tile,
    resolve_tile P images k = (cover_requests images k, Ok tile) /\
    img_w tile = TILE /\ img_h tile = TILE /\ artwork_or_placeholder P tile.
Proof.
  pose proof (Image_new_ok TILE TILE FALLBACK_COLOR TILE_fits TILE_fits) as Hnew.
  unfold resolve_tile, cover_requests. rewrite Hnew.
  destruct (truthy (default JNull (images !! k))).
  - destruct (download_and_fit_cases P (default JNull (images !! k)) TILE _ Hnew)
      as [E | (resp & im & tile & _ & _ & _ & Hfit & E)].
    + eexists. split; [exact E |]. split; [done |]. split; [done |].
      right. by intros x y.
    + apply ImageOps_fit_size in Hfit as (Hw & Hh & Hpx).
      exists tile. split; [exact E |]. split; [done |]. split; [done |].
      left. by exists im.
  - eexists. split; [reflexivity |]. split; [done |]. split; [done |].
    right. by intros x y.
Qed.

Lemma in_cell_box idx x y :
  0 <= idx -> 0 <= x < GRID * TILE -> 0 <= y ->
  ((idx mod GRID * TILE <=? x) && (x <? idx mod GRID * TILE + TILE)
   && (idx / GRID * TILE <=? y) && (y <? idx / GRID * TILE + TILE) = true
   <-> cell_of x y = idx).
Proof.
  unfold cell_of, GRID, TILE. intros Hi Hx Hy.
  rewrite !andb_true_iff, !Z.leb_le, !Z.ltb_lt.
  split; intros H; Z.to_euclidean_division_equations; lia.
Qed.

Lemma in_cell_offset idx x y :
  0 <= x < GRID * TILE -> 0 <= y -> cell_of x y = idx ->
  x - idx mod GRID * TILE = x mod TILE /\ y - idx / GRID * TILE = y mod TILE.
Proof.
  unfold cell_of, GRID, TILE. intros Hx Hy H.
  split; Z.to_euclidean_division_equations; lia.
Qed.

Lemma paste_loop_spec P images albums :
  forall idx canvas, 0 <= idx ->
  exists canvas',
    paste_loop P images idx albums canvas = (loop_trace images albums, Ok canvas') /\
    img_w canvas' = img_w canvas /\
    img_h canvas' = img_h canvas /\
    forall x y, 0 <= x < GRID * TILE -> 0 <= y ->
      (forall i k, albums !! i = Some k -> cell_of x y = idx + Z.of_nat i ->
         exists tile, tile_of P images k tile /\
           img_px canvas' x y = img_px tile (x mod TILE) (y mod TILE)) /\
      (cell_of x y < idx \/ idx + Z.of_nat (length albums) <= cell_of x y ->
       img_px canvas' x y = img_px canvas x y).
Proof.
  induction albums as [|k rest IH]; intros idx canvas Hidx.
  - exists canvas. split; [done |]. split; [done |]. split; [done |].
    intros x y Hx Hy. split; [intros i k' Hl; by destruct i | done].
  - destruct (resolve_tile_ok P images k) as (tile & Et & Hw & Hh & _).
    set (c1 := paste canvas tile (idx mod GRID * TILE, idx / GRID * TILE)).
    destruct (IH (idx + 1) c1 ltac:(lia)) as (c' & El & Hw' & Hh' & Hpx).
    exists c'. split.
    { cbn [paste_loop]. rewrite Et. unfold bind at 1. fold c1.
      unfold emit. unfold bind at 1. rewrite El.
      unfold loop_trace. cbn [flat_map]. by rewrite <- app_assoc. }
    split; [by rewrite Hw' |]. split; [by rewrite Hh' |].
    intros x y Hx Hy. destruct (Hpx x y Hx Hy) as [Hin Hout]. split.
    + intros i k' Hl Hc. destruct i as [|i].
      * injection Hl as <-. exists tile. split; [unfold tile_of; by rewrite Et |].
        rewrite Hout by lia.
        assert (Hcell : cell_of x y = idx) by lia.
        unfold c1, paste. cbn [img_px]. rewrite Hw, Hh.
        rewrite (proj2 (in_cell_box idx x y Hidx Hx Hy) Hcell).
        by destruct (in_cell_offset idx x y Hx Hy Hcell) as [-> ->].
      * apply (Hin i k' Hl). lia.
    + intros Hc. cbn [length] in Hc. rewrite Hout by lia.
      unfold c1, paste. cbn [img_px]. rewrite Hw, Hh.
      destruct (_ && _) eqn:Hb; [| done].
      apply (in_cell_box idx x y Hidx Hx Hy) in Hb. lia.
Qed.

Lemma collect_eq P API_KEY USER :
  collect P API_KEY USER
  = ([history_request USER API_KEY 200], snd (collect P API_KEY USER)).
Proof.
  unfold collect. rewrite lastfm_get_eq.
  destruct (snd (lastfm_get_recent_tracks P USER API_KEY 200)) as [data|e]; [| done].
  unfold bind, lift, raise.
  destruct (tracks_of data) as [tracks|e]; [| done].
  by destruct (negb (truthy tracks)).
Qed.

Lemma top_albums_length c : (length (top_albums_of c) <= Z.to_nat (GRID * GRID))%nat.
Proof.
  unfold top_albums_of, most_common. rewrite length_map, length_take. lia.
Qed.

(* A run whose fetch and aggregation succeed goes to its end: the trace,
   and the canvas that is saved. *)
Lemma main_completes P API_KEY USER st :
  snd (collect P API_KEY USER) = Ok st ->
  exists canvas,
    Image_new (GRID * TILE, GRID * TILE) FALLBACK_COLOR = Ok blank_canvas /\
    snd (paste_loop P (album_image st) 0 (top_albums_of (album_counts st)) blank_canvas)
      = Ok canvas /\
    main P API_KEY USER =
      ([EvMakedirs OUT_DIR; history_request USER API_KEY 200]
       ++ loop_trace (album_image st) (top_albums_of (album_counts st))
       ++ [EvSave OUT_PATH canvas 92 true;
           EvPrint OUT_PATH (GRID * TILE) (GRID * TILE)
             (length (top_albums_of (album_counts st)))],
       Ok tt) /\
    img_w canvas = GRID * TILE /\
    img_h canvas = GRID * TILE /\
    forall x y, 0 <= x < GRID * TILE -> 0 <= y ->
      match top_albums_of (album_counts st) !! Z.to_nat (cell_of x y) with
      | Some k =>
          exists tile, tile_of P (album_image st) k tile /\
            img_px canvas x y = img_px tile (x mod TILE) (y mod TILE)
      | None => img_px canvas x y = FALLBACK_COLOR
      end.
Proof.
  intros Hst.
  set (top := top_albums_of (album_counts st)).
  pose proof (Image_new_ok (GRID * TILE) (GRID * TILE) FALLBACK_COLOR
                ltac:(unfold GRID, TILE, INT_MAX; lia)
                ltac:(unfold GRID, TILE, INT_MAX; lia)) as Hnew.
  fold blank_canvas in Hnew.
  destruct (paste_loop_spec P (album_image st) top 0 blank_canvas ltac:(lia))
    as (canvas & El & Hw & Hh & Hpx).
  exists canvas. split; [done |]. split; [by rewrite El |].
  split; [| split; [done | split; [done |]]].
  - unfold main. rewrite collect_eq, Hst. unfold bind at 1. unfold emit at 1.
    unfold bind at 1. unfold compose. fold top. rewrite Hnew.
    unfold lift. unfold bind at 1. rewrite El. unfold bind, emit.
    cbn [app]. rewrite ?app_nil_r. reflexivity.
  - intros x y Hx Hy. destruct (Hpx x y Hx Hy) as [Hin Hout].
    assert (Hc : 0 <= cell_of x y).
    { unfold cell_of, GRID, TILE in *. Z.to_euclidean_division_equations; lia. }
    destruct (top !! Z.to_nat (cell_of x y)) as [k|] eqn:Hl.
    + apply (Hin _ k Hl). lia.
    + apply lookup_ge_None in Hl. rewrite Hout; [done | lia].
Qed.

Lemma sleeps_app tr1 tr2 : sleeps (tr1 ++ tr2) = (sleeps tr1 + sleeps tr2)%nat.
Proof. unfold sleeps. by rewrite filter_app, length_app. Qed.

Lemma sleeps_cover_requests images k : sleeps (cover_requests images k) = 0%nat.
Proof. unfold cover_requests. by destruct (truthy _). Qed.

Lemma sleeps_loop_trace images albums :
  sleeps (loop_trace images albums) = length albums.
Proof.
  induction albums as [|k rest IH]; [done |].
  unfold loop_trace in *. cbn [flat_map length].
  rewrite !sleeps_app, sleeps_cover_requests, IH. reflexivity.
Qed.

(** C9: in a run that reaches the composer, each selected album is
    followed by exactly one delay of 0.05 s, whether its cover was
    requested (and then fitted or replaced by the placeholder) or no URL
    was recorded for it and nothing was requested: the trace of the loop is,
    album by album, the request if any and then the delay, and the number of
    delays of the run is the number of albums reported as placed. *)
Theorem one_delay_per_album (P : platform) (API_KEY USER : pystr) (st : agg_state) :
  snd (collect P API_KEY USER) = Ok st ->
  let top := top_albums_of (album_counts st) in
  exists canvas,
    main P API_KEY USER =
      ([EvMakedirs OUT_DIR; history_request USER API_KEY 200]
       ++ flat_map (fun k => cover_requests (album_image st) k ++ [EvSleep (5 # 100)]) top
       ++ [EvSave OUT_PATH canvas 92 true;
           EvPrint OUT_PATH (GRID * TILE) (GRID * TILE) (length top)],
       Ok tt) /\
    sleeps (fst (main P API_KEY USER)) = length top /\
    forall k, sleeps (cover_requests (album_image st) k) = 0%nat /\
              (length (cover_requests (album_image st) k) <= 1)%nat.
Proof.
  intros Hst top.
  destruct (main_completes P API_KEY USER st Hst) as (canvas & _ & _ & E & _).
  exists canvas. split; [exact E |]. split.
  - rewrite E. cbn [fst]. rewrite !sleeps_app, sleeps_loop_trace.
    assert (sleeps [EvMakedirs OUT_DIR; history_request USER API_KEY 200] = 0%nat)
      as -> by reflexivity.
    assert (forall n, sleeps [EvSave OUT_PATH canvas 92 true;
                              EvPrint OUT_PATH (GRID * TILE) (GRID * TILE) n] = 0%nat)
      as -> by reflexivity.
    unfold top. lia.
  - intros k. split; [apply sleeps_cover_requests |].
    unfold cover_requests. destruct (truthy _); simpl; lia.
Qed.

Lemma one_delay_per_album_witness :
  let P := answering (JObj [(lit "recenttracks", JObj [(lit "track", JArr
             [ listen (lit "A") (lit "X") [lit "http://a/x.png"];
               listen (lit "B") (lit "Y") [lit ""];
               listen (lit "A") (lit "X") [lit "http://a/x2.png"] ])])]) in
  exists st,
    snd (collect P (lit "k") (lit "u")) = Ok st /\
    sleeps (fst (main P (lit "k") (lit "u")))
      = length (top_albums_of (album_counts st)).
Proof.
  intros P.
  assert (H : exists st, snd (collect P (lit "k") (lit "u")) = Ok st)
    by (eexists; vm_compute; reflexivity).
  destruct H as [st H]. exists st. split; [exact H |].
  destruct (one_delay_per_album P (lit "k") (lit "u") st H) as (canvas & _ & Hs & _).
  exact Hs.
Defined.

Lemma cell_of_tile i dx dy :
  0 <= i -> 0 <= dx < TILE -> 0 <= dy < TILE ->
  let x := i mod GRID * TILE + dx in
  let y := i / GRID * TILE + dy in
  0 <= x < GRID * TILE /\ 0 <= y /\ cell_of x y = i /\
  x mod TILE = dx /\ y mod TILE = dy.
Proof.
  unfold cell_of, GRID, TILE. intros Hi Hx Hy. cbv zeta.
  repeat split; Z.to_euclidean_division_equations; lia.
Qed.

Lemma tile_of_fun P images k t1 t2 : tile_of P images k t1 -> tile_of P images k t2 -> t1 = t2.
Proof. unfold tile_of. congruence. Qed.

(** C7: in a run that reaches the composer, the canvas is allocated with
    (GRID*TILE) x (GRID*TILE) pixels of the fallback colour; the tile of
    the album at index i of the selection, TILE x TILE pixels of artwork or
    placeholder, is pasted at row i / GRID and column i mod GRID in units of
    TILE; and in the canvas that is saved every pixel of every cell is a
    pixel of the tile of its album or, for the cells past the last selected
    album, of the fallback colour. *)
Theorem canvas_fully_populated (P : platform) (API_KEY USER : pystr) (st : agg_state) :
  snd (collect P API_KEY USER) = Ok st ->
  let top := top_albums_of (album_counts st) in
  let images := album_image st in
  exists canvas tr,
    Image_new (GRID * TILE, GRID * TILE) FALLBACK_COLOR = Ok blank_canvas /\
    snd (paste_loop P images 0 top blank_canvas) = Ok canvas /\
    main P API_KEY USER =
      (tr ++ [EvSave OUT_PATH canvas 92 true;
              EvPrint OUT_PATH (GRID * TILE) (GRID * TILE) (length top)], Ok tt) /\
    img_w canvas = GRID * TILE /\
    img_h canvas = GRID * TILE /\
    (length top <= Z.to_nat (GRID * GRID))%nat /\
    (forall i k, top !! i = Some k ->
       exists tile,
         tile_of P images k tile /\
         img_w tile = TILE /\ img_h tile = TILE /\ artwork_or_placeholder P tile /\
         let row := Z.of_nat i / GRID in
         let col := Z.of_nat i mod GRID in
         forall dx dy, 0 <= dx < TILE -> 0 <= dy < TILE ->
           img_px canvas (col * TILE + dx) (row * TILE + dy) = img_px tile dx dy) /\
    (forall x y, 0 <= x < GRID * TILE -> 0 <= y < GRID * TILE ->
       (exists i k tile,
          top !! i = Some k /\ cell_of x y = Z.of_nat i /\ tile_of P images k tile /\
          img_px canvas x y = img_px tile (x mod TILE) (y mod TILE)) \/
       (Z.of_nat (length top) <= cell_of x y /\ img_px canvas x y = FALLBACK_COLOR)).
Proof.
  intros Hst top images.
  destruct (main_completes P API_KEY USER st Hst)
    as (canvas & Hnew & Hloop & E & Hw & Hh & Hpx).
  fold top in Hloop, E, Hpx. fold images in Hloop, E, Hpx.
  exists canvas.
  exists ([EvMakedirs OUT_DIR; history_request USER API_KEY 200] ++ loop_trace images top).
  split; [done |]. split; [done |].
  split; [by rewrite E, <- app_assoc |].
  split; [done |]. split; [done |].
  split; [apply top_albums_length |]. split.
  - intros i k Hl.
    destruct (resolve_tile_ok P images k) as (tile & Et & Htw & Hth & Hart).
    assert (Htile : tile_of P images k tile) by (unfold tile_of; by rewrite Et).
    exists tile. split; [done |]. split; [done |]. split; [done |]. split; [done |].
    intros row col dx dy Hdx Hdy.
    destruct (cell_of_tile (Z.of_nat i) dx dy ltac:(lia) Hdx Hdy)
      as (Hx & Hy & Hc & Hmx & Hmy).
    fold col in Hx, Hc, Hmx. fold row in Hy, Hc, Hmy.
    specialize (Hpx _ _ Hx Hy). rewrite Hc, Nat2Z.id, Hl in Hpx.
    destruct Hpx as (tile' & Ht' & Hp).
    rewrite (tile_of_fun _ _ _ _ _ Htile Ht'). by rewrite Hp, Hmx, Hmy.
  - intros x y Hx Hy.
    assert (Hc : 0 <= cell_of x y).
    { unfold cell_of, GRID, TILE in *. Z.to_euclidean_division_equations; lia. }
    specialize (Hpx x y Hx ltac:(lia)).
    destruct (top !! Z.to_nat (cell_of x y)) as [k|] eqn:Hl.
    + left. destruct Hpx as (tile & Ht & Hp).
      exists (Z.to_nat (cell_of x y)), k, tile.
      split; [done |]. split; [lia | done].
    + right. apply lookup_ge_None in Hl. split; [lia | done].
Qed.

Lemma canvas_fully_populated_witness :
  let P := answering (JObj [(lit "recenttracks", JObj [(lit "track", JArr
             [ listen (lit "A") (lit "X") [lit "http://a/x.png"];
               listen (lit "B") (lit "Y") [lit ""] ])])]) in
  exists st canvas,
    snd (collect P (lit "k") (lit "u")) = Ok st /\
    snd (paste_loop P (album_image st) 0 (top_albums_of (album_counts st)) blank_canvas)
      = Ok canvas /\
    img_w canvas = GRID * TILE /\
    img_h canvas = GRID * TILE.
Proof.
  intros P.
  assert (H : exists st, snd (collect P (lit "k") (lit "u")) = Ok st)
    by (eexists; vm_compute; reflexivity).
  destruct H as [st H]. exists st.
  destruct (canvas_fully_populated P (lit "k") (lit "u") st H)
    as (canvas & tr & _ & Hl & _ & Hw & Hh & _).
  exists canvas. split; [exact H |]. split; [exact Hl |]. split; [exact Hw | exact Hh].
Defined.

(* --------------------------------------------------------------------- *)
(* The selection of the albums                                            *)
(* --------------------------------------------------------------------- *)

Section Counter.

Local Open Scope nat_scope.

Lemma counter_get_incr k k' c :
  counter_get k' (counter_incr k c)
  = if decide (k' = k) then S (counter_get k c) else counter_get k' c.
Proof.
  induction c as [|[k0 n] c IH]; cbn [counter_incr counter_get].
  - repeat case_decide; congruence.
  - destruct (decide (k = k0)) as [->|Hne]; cbn [counter_get];
      repeat case_decide; try congruence.
Qed.

Lemma counter_keys_incr k c :
  (counter_incr k c).*1 = if decide (k ∈ c.*1) then c.*1 else c.*1 ++ [k].
Proof.
  induction c as [|[k0 n] c IH]; cbn [counter_incr].
  - destruct (decide (k ∈ ([] : counter).*1)) as [H|H]; [by apply elem_of_nil in H | done].
  - destruct (decide (k = k0)) as [->|Hne]; rewrite !fmap_cons; cbn [fst].
    + destruct (decide (k0 ∈ k0 :: c.*1)) as [H|H]; [done |].
      exfalso; apply H; left.
    + rewrite IH. destruct (decide (k ∈ c.*1)) as [Hin|Hnin].
      * destruct (decide (k ∈ k0 :: c.*1)) as [H|H]; [done |].
        exfalso; apply H. by right.
      * destruct (decide (k ∈ k0 :: c.*1)) as [H|H]; [| done].
        apply elem_of_cons in H as [H|H]; congruence.
Qed.

Lemma counter_get_elem k n c : NoDup c.*1 -> (k, n) ∈ c -> counter_get k c = n.
Proof.
  induction c as [|[k0 n0] c IH]; intros Hnd Hin; [by apply elem_of_nil in Hin |].
  cbn [fmap list_fmap fst] in Hnd. apply NoDup_cons in Hnd as [Hnin Hnd].
  cbn [counter_get]. apply elem_of_cons in Hin as [[= -> ->]|Hin].
  - by case_decide.
  - case_decide as H; [| by apply IH].
    subst k0. exfalso; apply Hnin.
    apply list_elem_of_fmap. by exists (k, n).
Qed.

Lemma plays_snoc k win t :
  plays k (win ++ [t]) = plays k win + (if decide (event_key t = Some k) then 1 else 0).
Proof. induction win as [|t' win IH]; cbn [app plays]; [| rewrite IH]; lia. Qed.

Lemma first_pos_le k win : first_pos k win <= length win.
Proof.
  induction win as [|t win IH]; cbn [first_pos length]; [lia |].
  case_decide; lia.
Qed.

Lemma first_pos_played k win l :
  1 <= plays k win ->
  first_pos k (win ++ l) = first_pos k win /\ first_pos k win < length win.
Proof.
  induction win as [|t win IH]; cbn [app plays first_pos length]; [lia |].
  case_decide as Hd; [lia |]. intros Hp. destruct IH as [-> ?]; lia.
Qed.

Lemma first_pos_unplayed k win l :
  plays k win = 0 -> first_pos k (win ++ l) = length win + first_pos k l.
Proof.
  induction win as [|t win IH]; cbn [app plays first_pos length]; [lia |].
  case_decide as Hd; [lia |]. intros Hp. rewrite IH; lia.
Qed.

End Counter.

Lemma counts_inv_nil : counts_inv [] [].
Proof.
  split; [constructor |]. split; [done |]. split.
  { intros k. cbn. split; [intros H; by apply elem_of_nil in H | lia]. }
  split; [by intros [] | done].
Qed.

Lemma counts_inv_skip win c t :
  event_key t = None -> counts_inv win c -> counts_inv (win ++ [t]) c.
Proof.
  intros Ht (Hnd & Hget & Hin & Hord & Hlen).
  assert (Hp : forall k, plays k (win ++ [t]) = plays k win).
  { intros k. rewrite plays_snoc, Ht. case_decide; [done | lia]. }
  split; [done |]. split; [intros k; by rewrite Hp |].
  split; [intros k; by rewrite Hp |]. split.
  - intros i j a b Hij Ha Hb.
    assert (Hpa : (1 <= plays a win)%nat).
    { apply Hin. by apply list_elem_of_lookup_2 in Ha. }
    assert (Hpb : (1 <= plays b win)%nat).
    { apply Hin. by apply list_elem_of_lookup_2 in Hb. }
    destruct (first_pos_played a win [t] Hpa) as [-> _].
    destruct (first_pos_played b win [t] Hpb) as [-> _].
    by apply (Hord i j).
  - rewrite length_app. lia.
Qed.

Lemma counts_inv_incr win c t k :
  event_key t = Some k -> counts_inv win c ->
  counts_inv (win ++ [t]) (counter_incr k c).
Proof.
  intros Ht (Hnd & Hget & Hin & Hord & Hlen).
  assert (Hp : forall k', plays k' (win ++ [t])
                = (plays k' win + if decide (k' = k) then 1 else 0)%nat).
  { intros k'. rewrite plays_snoc, Ht.
    destruct (decide (Some k = Some k')) as [[= ->]|Hne].
    - by rewrite decide_True.
    - rewrite decide_False; [done | congruence]. }
  assert (Hkeep : forall a, a ∈ c.*1 ->
            first_pos a (win ++ [t]) = first_pos a win /\
            (first_pos a win < length win)%nat).
  { intros a Ha. apply first_pos_played. by apply Hin. }
  pose proof (counter_keys_incr k c) as Hkeys.
  split; [| split; [| split; [| split]]].
  - rewrite Hkeys. destruct (decide (k ∈ c.*1)); [done |].
    apply NoDup_app. split; [done |]. split; [| apply NoDup_singleton].
    intros x Hx Hx'. apply list_elem_of_singleton in Hx' as ->. done.
  - intros k'. rewrite counter_get_incr, Hp, <- !Hget.
    destruct (decide (k' = k)) as [->|]; lia.
  - intros k'. rewrite Hkeys, Hp.
    destruct (decide (k ∈ c.*1)) as [Hk|Hk].
    + rewrite Hin. destruct (decide (k' = k)) as [->|]; [| by rewrite Nat.add_0_r].
      apply Hin in Hk. split; lia.
    + rewrite elem_of_app, list_elem_of_singleton, Hin.
      destruct (decide (k' = k)) as [->|]; [split; [lia | by right] |].
      rewrite Nat.add_0_r. split; [intros [?|?]; [done | congruence] | by left].
  - intros i j a b Hij Ha Hb. rewrite Hkeys in Ha, Hb.
    destruct (decide (k ∈ c.*1)) as [Hk|Hk].
    + destruct (Hkeep a) as [-> _]; [by apply list_elem_of_lookup_2 in Ha |].
      destruct (Hkeep b) as [-> _]; [by apply list_elem_of_lookup_2 in Hb |].
      by apply (Hord i j).
    + assert (Hi : (i < length c.*1)%nat).
      { apply lookup_lt_Some in Hb. rewrite length_app in Hb. cbn in Hb. lia. }
      rewrite lookup_app_l in Ha by done.
      destruct (Hkeep a) as [-> Hlt]; [by apply list_elem_of_lookup_2 in Ha |].
      destruct (decide (j < length c.*1)%nat) as [Hj|Hj].
      * rewrite lookup_app_l in Hb by done.
        destruct (Hkeep b) as [-> _]; [by apply list_elem_of_lookup_2 in Hb |].
        by apply (Hord i j).
      * rewrite lookup_app_r in Hb by lia.
        apply list_lookup_singleton_Some in Hb as [_ <-].
        assert (Hz : plays k win = 0%nat).
        { destruct (plays k win) eqn:E; [done |].
          exfalso; apply Hk, Hin. lia. }
        rewrite (first_pos_unplayed k win [t] Hz). lia.
  - rewrite <- (length_fmap fst), Hkeys, length_app.
    destruct (decide (k ∈ c.*1)); rewrite ?length_app, length_fmap; cbn; lia.
Qed.

Lemma agg_step_counts st t st' :
  agg_step st t = Ok st' ->
  album_counts st' =
    match event_key t with
    | Some k => counter_incr k (album_counts st)
    | None => album_counts st
    end.
Proof.
  intros H. unfold event_key.
  destruct (agg_step_inv _ _ _ H) as [[-> ->] | (k & -> & -> & _)]; done.
Qed.

Lemma agg_loop_counts win :
  forall st, agg_loop agg_init win = Ok st -> counts_inv win (album_counts st).
Proof.
  induction win as [|t win IH] using rev_ind; intros st.
  - intros [= <-]. apply counts_inv_nil.
  - rewrite agg_loop_app.
    destruct (agg_loop agg_init win) as [st1|] eqn:E; cbn [rbind agg_loop]; [| discriminate].
    destruct (agg_step st1 t) as [st2|] eqn:Hs; cbn [rbind]; [| discriminate].
    intros [= <-]. rewrite (agg_step_counts _ _ _ Hs).
    destruct (event_key t) as [k|] eqn:Hk.
    + by apply counts_inv_incr; [| apply IH].
    + by apply counts_inv_skip; [| apply IH].
Qed.

Section Sorting.

Local Open Scope nat_scope.

Lemma insert_desc_perm x l : insert_desc x l ≡ₚ x :: l.
Proof.
  induction l as [|y l IH]; cbn [insert_desc]; [done |].
  destruct (snd x <? snd y); [| done].
  rewrite IH. apply Permutation_swap.
Qed.

Lemma sorted_desc_perm c : sorted_desc c ≡ₚ c.
Proof.
  induction c as [|x c IH]; [done |].
  cbn [sorted_desc foldr]. fold (sorted_desc c).
  by rewrite insert_desc_perm, IH.
Qed.

Lemma StronglySorted_weaken {A} (R R' : A -> A -> Prop) l :
  (forall a b, R a b -> R' a b) -> StronglySorted R l -> StronglySorted R' l.
Proof.
  intros HR. induction 1 as [|a l Hs IH Hall]; constructor; [done |].
  eapply Forall_impl; [exact Hall | auto].
Qed.

Lemma StronglySorted_lookup {A} (R : A -> A -> Prop) l i j x y :
  StronglySorted R l -> i < j -> l !! i = Some x -> l !! j = Some y -> R x y.
Proof.
  intros Hs. revert i j. induction Hs as [|a l Hs IH Hall]; intros i j Hij Hi Hj.
  - by destruct i.
  - destruct j as [|j]; [lia |]. destruct i as [|i].
    + injection Hi as <-. rewrite Forall_forall in Hall. apply Hall.
      cbn in Hj. by apply list_elem_of_lookup_2 in Hj.
    + apply (IH i j); [lia | done | done].
Qed.

Lemma insert_desc_sorted (R : pystr * nat -> pystr * nat -> Prop) x l :
  (forall a b, R a b -> snd b <= snd a) ->
  (forall z, z ∈ l -> snd z <= snd x -> R x z) ->
  (forall z, z ∈ l -> snd x < snd z -> R z x) ->
  StronglySorted R l -> StronglySorted R (insert_desc x l).
Proof.
  intros Hmono Hafter Hfront Hs.
  induction Hs as [|y l Hs IH Hall]; cbn [insert_desc].
  - constructor; [constructor | constructor].
  - destruct (Nat.ltb_spec (snd x) (snd y)) as [Hlt|Hge].
    + constructor.
      * apply IH; intros z Hz; [apply Hafter | apply Hfront]; by right.
      * rewrite insert_desc_perm. constructor; [| done].
        apply Hfront; [left | done].
    + constructor; [by constructor |].
      rewrite Forall_forall. intros z Hz. apply Hafter; [done |].
      apply elem_of_cons in Hz as [->|Hz]; [done |].
      rewrite Forall_forall in Hall. specialize (Hmono _ _ (Hall z Hz)). lia.
Qed.

Lemma before_cons x c a b : before c a b -> before (x :: c) a b.
Proof. intros (i & j & Hij & Hi & Hj). exists (S i), (S j). split; [lia | done]. Qed.

Lemma sorted_desc_sorted c : StronglySorted (item_before c) (sorted_desc c).
Proof.
  induction c as [|x c IH]; [constructor |].
  cbn [sorted_desc foldr]. fold (sorted_desc c).
  apply insert_desc_sorted.
  - intros a b [H | [H _]]; lia.
  - intros z Hz Hle. rewrite sorted_desc_perm in Hz.
    apply list_elem_of_lookup_1 in Hz as [j Hj].
    destruct (decide (snd z < snd x)) as [Hlt|Hnlt]; [by left |].
    right. split; [lia |]. exists 0, (S j). split; [lia | done].
  - intros z _ Hlt. by left.
  - apply (StronglySorted_weaken (item_before c)); [| done].
    intros a b [H | [H Hb]]; [by left |]. right. split; [done |].
    by apply before_cons.
Qed.

End Sorting.

(* The order of the items, read on the window. *)
Lemma item_before_ranks win c x y :
  counts_inv win c -> x ∈ c -> y ∈ c ->
  item_before c x y -> ranks_before win (fst x) (fst y).
Proof.
  intros (Hnd & Hget & _ & Hord & _) Hx Hy Hb.
  destruct x as [a na], y as [b nb]. cbn [fst snd] in *.
  pose proof (counter_get_elem a na c Hnd Hx) as Ea.
  pose proof (counter_get_elem b nb c Hnd Hy) as Eb.
  rewrite Hget in Ea, Eb. subst na nb.
  destruct Hb as [Hlt | [Heq (i & j & Hij & Hi & Hj)]]; [by left |].
  right. split; [done |]. apply (Hord i j); [done | |].
  - exact (list_lookup_fmap_Some_2 fst c i (a, _) Hi).
  - exact (list_lookup_fmap_Some_2 fst c j (b, _) Hj).
Qed.

Lemma aggregate_window l st :
  aggregate (JArr l) = Ok st ->
  agg_loop agg_init (take (Z.to_nat LAST_N_LISTENS) l) = Ok st.
Proof. unfold aggregate. cbn [py_slice_upto rbind py_iter]. done. Qed.

(** C1: for every list of events on which the aggregation goes through,
    the albums selected are distinct keys, at most min(N, R*R) of them;
    each was played in the window of the first N events; they come by
    descending number of plays in the window, and among keys played as
    often by the position of their first event in the window; and a key
    of the window that is left out is outranked by every selected key, the
    selection then being full (R*R keys). *)
Theorem top_albums_selection (l : list json) (st : agg_state) :
  aggregate (JArr l) = Ok st ->
  let win := take (Z.to_nat LAST_N_LISTENS) l in
  let top := top_albums_of (album_counts st) in
  NoDup top /\
  (length top <= Nat.min (Z.to_nat LAST_N_LISTENS) (Z.to_nat (GRID * GRID)))%nat /\
  (forall k, k ∈ top -> (1 <= plays k win)%nat) /\
  (forall i j a b, (i < j)%nat -> top !! i = Some a -> top !! j = Some b ->
     ranks_before win a b) /\
  (forall k, (1 <= plays k win)%nat -> k ∉ top ->
     length top = Z.to_nat (GRID * GRID) /\
     forall a, a ∈ top -> ranks_before win a k).
Proof.
  intros Hagg win top. apply aggregate_window in Hagg. fold win in Hagg.
  pose proof (agg_loop_counts win st Hagg) as Hinv.
  set (c := album_counts st) in *.
  set (n := Z.to_nat (GRID * GRID)).
  set (s := sorted_desc c).
  assert (Hperm : s ≡ₚ c) by apply sorted_desc_perm.
  assert (Hsorted : StronglySorted (item_before c) s) by apply sorted_desc_sorted.
  assert (Htop : top = take n s.*1).
  { unfold top, top_albums_of, most_common. apply fmap_take. }
  destruct Hinv as (Hnd & Hget & Hin & Hord & Hlen).
  assert (Hinv : counts_inv win c) by done.
  assert (Hnds : NoDup s.*1) by (by rewrite Hperm).
  (* an entry of the selection is an item of the sorted counter *)
  assert (Hitem : forall i a, top !! i = Some a ->
            exists x, s !! i = Some x /\ fst x = a /\ x ∈ c /\ (i < n)%nat).
  { intros i a Hi. rewrite Htop in Hi.
    apply lookup_take_Some in Hi as [Hi Hlt].
    apply list_lookup_fmap_Some in Hi as (x & -> & Hx).
    exists x. split; [done |]. split; [done |]. split; [| done].
    rewrite <- Hperm. by apply list_elem_of_lookup_2 in Hx. }
  split; [| split; [| split; [| split]]].
  - rewrite Htop. apply (sublist_NoDup _ s.*1); [done | apply sublist_take].
  - assert (length top <= length c)%nat.
    { rewrite Htop, length_take, length_fmap, (Permutation_length Hperm). lia. }
    assert (length win <= Z.to_nat LAST_N_LISTENS)%nat.
    { unfold win. rewrite length_take. lia. }
    assert (length top <= n)%nat by (rewrite Htop, length_take; lia).
    fold n. lia.
  - intros k Hk. apply list_elem_of_lookup_1 in Hk as [i Hi].
    destruct (Hitem i k Hi) as (x & _ & <- & Hx & _).
    apply Hin. by apply list_elem_of_fmap_2.
  - intros i j a b Hij Hi Hj.
    destruct (Hitem i a Hi) as (x & Hsx & <- & Hx & _).
    destruct (Hitem j b Hj) as (y & Hsy & <- & Hy & _).
    apply (item_before_ranks win c); [done | done | done |].
    by apply (StronglySorted_lookup _ s i j).
  - intros k Hplayed Hout.
    apply Hin in Hplayed. apply list_elem_of_fmap_1 in Hplayed as (y & -> & Hy).
    assert (Hys : y ∈ s) by (by rewrite Hperm).
    apply list_elem_of_lookup_1 in Hys as [j Hj].
    assert (Hjn : (n <= j)%nat).
    { destruct (decide (j < n)%nat) as [Hlt|]; [| lia].
      exfalso; apply Hout. rewrite Htop.
      apply (list_elem_of_lookup_2 _ j). apply lookup_take_Some. split; [| done].
      exact (list_lookup_fmap_Some_2 fst s j y Hj). }
    split.
    + apply lookup_lt_Some in Hj. rewrite Htop, length_take, length_fmap. lia.
    + intros a Ha. apply list_elem_of_lookup_1 in Ha as [i Hi].
      destruct (Hitem i a Hi) as (x & Hsx & <- & Hx & Hlt).
      apply (item_before_ranks win c); [done | done | done |].
      apply (StronglySorted_lookup _ s i j); [done | lia | done | done].
Qed.

Lemma top_albums_selection_witness :
  let l := [ listen (lit "B") (lit "Y") [];
             listen (lit "A") (lit "X") [];
             listen (lit "A") (lit "") [];
             listen (lit "A") (lit "X") [] ] in
  exists st,
    aggregate (JArr l) = Ok st /\
    NoDup (top_albums_of (album_counts st)) /\
    (length (top_albums_of (album_counts st))
     <= Nat.min (Z.to_nat LAST_N_LISTENS) (Z.to_nat (GRID * GRID)))%nat.
Proof.
  intros l.
  assert (H : exists st, aggregate (JArr l) = Ok st)
    by (eexists; vm_compute; reflexivity).
  destruct H as [st H]. exists st. split; [exact H |].
  destruct (top_albums_selection l st H) as (Hnd & Hlen & _).
  split; [exact Hnd | exact Hlen].
Defined.

(* The scenario of the specification: two plays of "A — X" and one of
   "B — Y" select "A — X" first. *)
Example selection_scenario :
  exists st,
    aggregate (JArr [ listen (lit "B") (lit "Y") [];
                      listen (lit "A") (lit "X") [];
                      listen (lit "A") (lit "X") [] ]) = Ok st /\
    top_albums_of (album_counts st)
    = [lit "A" ++ key_sep ++ lit "X"; lit "B" ++ key_sep ++ lit "Y"].
Proof. eexists. split; vm_compute; reflexivity. Qed.

(* Keys played as often come in the order of their first events. *)
Example selection_ties :
  exists st,
    aggregate (JArr [ listen (lit "C") (lit "Z") [];
                      listen (lit "B") (lit "Y") [];
                      listen (lit "A") (lit "X") [];
                      listen (lit "B") (lit "Y") [];
                      listen (lit "A") (lit "X") [] ]) = Ok st /\
    top_albums_of (album_counts st)
    = [ lit "B" ++ key_sep ++ lit "Y"; lit "A" ++ key_sep ++ lit "X";
        lit "C" ++ key_sep ++ lit "Z" ].
Proof. eexists. split; vm_compute; reflexivity. Qed.

(* --------------------------------------------------------------------- *)
(* Runs that go through                                                   *)
(* --------------------------------------------------------------------- *)

Lemma agg_step_returns st t : processable t -> exists st', agg_step st t = Ok st'.
Proof.
  intros [[key Hk] [u Hu]]. unfold agg_step. rewrite Hk. cbn [rbind].
  destruct key as [k|]; [| by eexists].
  destruct (negb (key_truthy (Some k))); [by eexists |].
  destruct (album_image st !! k); [by eexists |].
  rewrite Hu. cbn [rbind]. destruct (truthy u); by eexists.
Qed.

Lemma agg_loop_returns ts :
  (forall t, t ∈ ts -> processable t) -> forall st, exists st', agg_loop st ts = Ok st'.
Proof.
  induction ts as [|t ts IH]; intros Hall st; [by exists st |].
  destruct (agg_step_returns st t) as [st1 E]; [apply Hall; left |].
  cbn [agg_loop]. rewrite E. cbn [rbind].
  apply IH. intros t' Hin. apply Hall. by right.
Qed.

Lemma scan_images_objects l :
  (forall it, it ∈ l -> exists d, it = JObj d) -> exists u, scan_images l = Ok u.
Proof.
  induction l as [|it l IH]; intros Hall; [by eexists |].
  destruct (Hall it) as [d ->]; [left |].
  cbn [scan_images py_get rbind]. destruct (truthy _); [by eexists |].
  apply IH. intros it' Hin. apply Hall. by right.
Qed.

(* The tracks the service sends are processable. *)
Lemma listen_processable artist album urls : processable (listen artist album urls).
Proof.
  split.
  - unfold listen. rewrite safe_album_key_names.
    assert (artist_value
              [(lit "artist", JObj [(lit "name", JStr artist)]);
               (lit "album", JObj [(lit "#text", JStr album)]);
               (lit "image", JArr (map (fun u => JObj [(lit "#text", JStr u)]) urls))]
            = JStr artist) as -> by reflexivity.
    assert (album_value
              [(lit "artist", JObj [(lit "name", JStr artist)]);
               (lit "album", JObj [(lit "#text", JStr album)]);
               (lit "image", JArr (map (fun u => JObj [(lit "#text", JStr u)]) urls))]
            = JStr album) as -> by reflexivity.
    rewrite key_of_names_str. case_decide; by eexists.
  - assert (pick_best_image_url (listen artist album urls)
            = scan_images (rev (map (fun u => JObj [(lit "#text", JStr u)]) urls)))
      as ->.
    { unfold pick_best_image_url, listen. cbn [py_get rbind].
      assert (dict_get
                [(lit "artist", JObj [(lit "name", JStr artist)]);
                 (lit "album", JObj [(lit "#text", JStr album)]);
                 (lit "image", JArr (map (fun u => JObj [(lit "#text", JStr u)]) urls))]
                (lit "image") (JArr [])
              = JArr (map (fun u => JObj [(lit "#text", JStr u)]) urls))
        as -> by reflexivity.
      unfold or_empty_list. by destruct urls. }
    apply scan_images_objects. intros it Hin.
    apply elem_of_rev_inv in Hin. apply list_elem_of_fmap in Hin as (u & -> & _).
    by eexists.
Qed.

(* A run whose history request is answered with a non-empty list of
   processable tracks returns: every step after the fetch goes through. *)
Lemma main_returns P API_KEY USER data t l :
  snd (lastfm_get_recent_tracks P USER API_KEY 200) = Ok data ->
  tracks_of data = Ok (JArr (t :: l)) ->
  (forall t', t' ∈ take (Z.to_nat LAST_N_LISTENS) (t :: l) -> processable t') ->
  exists st,
    snd (collect P API_KEY USER) = Ok st /\ snd (main P API_KEY USER) = Ok tt.
Proof.
  intros Hdata Htracks Hall.
  destruct (agg_loop_returns _ Hall agg_init) as [st Hst].
  assert (Hc : snd (collect P API_KEY USER) = Ok st).
  { unfold collect. rewrite lastfm_get_eq, Hdata.
    unfold bind, lift, raise. rewrite Htracks. cbn [truthy negb snd].
    unfold aggregate. cbn [py_slice_upto rbind py_iter]. exact Hst. }
  exists st. split; [exact Hc |].
  destruct (main_completes P API_KEY USER st Hc) as (canvas & _ & _ & E & _).
  by rewrite E.
Qed.

(* ===================================================================== *)
(* Further properties of the code                                         *)
(* ===================================================================== *)

(* --------------------------------------------------------------------- *)
(* Trimming and the album key                                             *)
(* --------------------------------------------------------------------- *)

Lemma lstrip_app s t :
  lstrip (s ++ t) = match lstrip s with [] => lstrip t | _ => lstrip s ++ t end.
Proof.
  induction s as [|c s IH]; cbn [app lstrip]; [by destruct (lstrip t) |].
  destruct (isspace c); [exact IH | done].
Qed.

Lemma lstrip_all_space p : all_space p = true -> lstrip p = [].
Proof.
  induction p as [|c p IH]; [done |]. cbn [all_space forallb lstrip].
  intros [Hc Hp]%andb_true_iff. rewrite Hc. by apply IH.
Qed.

Lemma all_space_rev p : all_space p = true -> all_space (rev p) = true.
Proof.
  unfold all_space. rewrite !forallb_forall. intros H c Hc.
  apply H. by apply in_rev.
Qed.

Lemma rstrip_app_space s p : all_space p = true -> rstrip (s ++ p) = rstrip s.
Proof.
  intros Hp. unfold rstrip. rewrite rev_app_distr, lstrip_app.
  by rewrite (lstrip_all_space _ (all_space_rev _ Hp)).
Qed.

(* Whitespace around a string does not change what strip returns. *)
Lemma strip_padding p1 s p2 :
  all_space p1 = true -> all_space p2 = true -> strip (p1 ++ s ++ p2) = strip s.
Proof.
  intros H1 H2. unfold strip.
  rewrite lstrip_app, (lstrip_all_space _ H1), lstrip_app.
  destruct (lstrip s) as [|c r] eqn:E.
  - by rewrite (lstrip_all_space _ H2).
  - by apply rstrip_app_space.
Qed.






(** X1: whitespace around the artist or the album name does not change
    the album key: two tracks whose names differ by leading and trailing
    whitespace only are counted as the same album. *)
Theorem key_ignores_padding (d d' : list (pystr * json)) (a al p1 p2 p3 p4 : pystr) :
  all_space p1 = true -> all_space p2 = true ->
  all_space p3 = true -> all_space p4 = true ->
  artist_value d = JStr a -> album_value d = JStr al ->
  artist_value d' = JStr (p1 ++ a ++ p2) ->
  album_value d' = JStr (p3 ++ al ++ p4) ->
  safe_album_key (JObj d') = safe_album_key (JObj d).
Proof.
  intros H1 H2 H3 H4 Ha Hal Ha' Hal'.
  rewrite !safe_album_key_names, Ha, Hal, Ha', Hal', !key_of_names_str.
  by rewrite !strip_padding.
Qed.

Lemma key_ignores_padding_witness :
  safe_album_key (track_of (lit "  Low ") (lit "Hey What" ++ [0x09%N]))
  = safe_album_key (track_of (lit "Low") (lit "Hey What")).
Proof.
  apply (key_ignores_padding _ _ (lit "Low") (lit "Hey What")
           (lit "  ") (lit " ") [] [0x09%N]); reflexivity.
Defined.


(* --------------------------------------------------------------------- *)
(* The artwork URL: edges                                                 *)
(* --------------------------------------------------------------------- *)

Lemma scan_images_result l u : scan_images l = Ok u -> u = JNull \/ truthy u = true.
Proof.
  induction l as [|it l IH]; cbn [scan_images]; [intros [= <-]; by left |].
  destruct (py_get it (lit "#text") JNull) as [v|]; cbn [rbind]; [| discriminate].
  destruct (truthy v) eqn:Hv; [intros [= <-]; by right | exact IH].
Qed.

(** X3: a URL that pick_best_image_url returns is never an empty value: the
    result is None or a non-empty URL, whatever the track. *)
Theorem pick_best_none_or_nonempty (t u : json) :
  pick_best_image_url t = Ok u -> u = JNull \/ truthy u = true.
Proof.
  unfold pick_best_image_url.
  destruct (py_get t (lit "image") (JArr [])) as [img|]; cbn [rbind]; [| discriminate].
  destruct (py_iter (or_empty_list img)) as [items|]; cbn [rbind]; [| discriminate].
  apply scan_images_result.
Qed.

Lemma pick_best_none_or_nonempty_witness :
  JStr (lit "http://a/174.png") = JNull \/
  truthy (JStr (lit "http://a/174.png")) = true.
Proof.
  apply (pick_best_none_or_nonempty
           (listen (lit "A") (lit "X") [lit "http://a/34.png"; lit "http://a/174.png"])).
  reflexivity.
Defined.

(** X4: a track without artwork candidates (the "image" field missing,
    null, or an empty list, string or object) has no URL: None is returned
    and nothing is raised. *)
Theorem pick_best_without_images (d : list (pystr * json)) :
  truthy (dict_get d (lit "image") (JArr [])) = false ->
  pick_best_image_url (JObj d) = Ok JNull.
Proof.
  intros H. unfold pick_best_image_url. cbn [py_get rbind].
  unfold or_empty_list. by rewrite H.
Qed.

Lemma pick_best_without_images_witness :
  pick_best_image_url
    (JObj [(lit "artist", JStr (lit "A")); (lit "image", JNull)]) = Ok JNull.
Proof.
  apply (pick_best_without_images
           [(lit "artist", JStr (lit "A")); (lit "image", JNull)]).
  reflexivity.
Defined.

(* --------------------------------------------------------------------- *)
(* The artwork resolver: which tile                                       *)
(* --------------------------------------------------------------------- *)

(** X5: when the cover request raises, is answered with an error status
    (400 to 599), or carries bytes that are not an image, download_and_fit
    returns precisely the placeholder: a tile of the requested size, every
    pixel of the fallback colour. This is for a tile size from 0 to the
    TILE of the script. *)
Theorem failed_download_gives_placeholder (P : platform) (url : json) (tile_size : Z) :
  0 <= tile_size <= TILE ->
  (http_cover P url = None \/
   exists resp, http_cover P url = Some resp /\
     ((400 <= status resp < 600) \/ content resp = None)) ->
  download_and_fit P url tile_size
  = ([EvCoverGet url REQUEST_TIMEOUT], Ok (placeholder tile_size)).
Proof.
  intros Ht Hfail.
  unfold download_and_fit, try_except, bind, emit, lift, raise.
  assert (Hfits : 0 <= tile_size <= INT_MAX) by (pose proof TILE_fits; lia).
  rewrite (Image_new_ok tile_size tile_size FALLBACK_COLOR Hfits Hfits).
  destruct Hfail as [-> | (resp & -> & Hresp)]; [done |].
  unfold raise_for_status.
  destruct ((400 <=? status resp) && (status resp <? 600)) eqn:Hs; [done |].
  destruct Hresp as [Hbad | ->]; [| done].
  apply andb_false_iff in Hs as [Hs|Hs]; [apply Z.leb_gt in Hs | apply Z.ltb_ge in Hs]; lia.
Qed.

(* A cover host that answers every request with 404. *)
Lemma failed_download_gives_placeholder_witness :
  let P := {| http_history := fun _ _ => None;
              http_cover := fun _ => Some {| status := 404; content := None |};
              lanczos := fun _ _ _ _ => (0, 0, 0) |} in
  download_and_fit P (JStr (lit "http://a/174.png")) TILE
  = ([EvCoverGet (JStr (lit "http://a/174.png")) REQUEST_TIMEOUT],
     Ok (placeholder TILE)).
Proof.
  intros P.
  apply (failed_download_gives_placeholder P (JStr (lit "http://a/174.png")) TILE).
  - unfold TILE. lia.
  - right. exists {| status := 404; content := None |}.
    split; [reflexivity |]. left. cbn. lia.
Defined.

(** X6: when the cover request is answered without an error status and
    with a picture of positive size, the tile download_and_fit returns
    for a positive tile size up to the TILE of the script is the picture
    fitted to that size, not the placeholder. *)
Theorem good_download_gives_artwork (P : platform) (url : json) (tile_size : Z)
    (resp : response (option image)) (im : image) :
  0 < tile_size <= TILE ->
  http_cover P url = Some resp ->
  ~ (400 <= status resp < 600) ->
  content resp = Some im ->
  0 < img_w im -> 0 < img_h im ->
  download_and_fit P url tile_size
  = ([EvCoverGet url REQUEST_TIMEOUT],
     Ok {| img_w := tile_size; img_h := tile_size;
           img_px := lanczos P im (tile_size, tile_size) |}).
Proof.
  intros Ht Hc Hs Him Hw Hh.
  unfold download_and_fit, try_except, bind, emit, lift, raise.
  rewrite Hc. unfold raise_for_status.
  destruct ((400 <=? status resp) && (status resp <? 600)) eqn:Hb.
  { apply andb_true_iff in Hb as [H1%Z.leb_le H2%Z.ltb_lt]. lia. }
  rewrite Him. unfold ImageOps_fit. cbn [fst snd].
  pose proof TILE_fits as Hfits.
  destruct (Z.eqb_spec (img_h im) 0); [lia |].
  destruct (Z.eqb_spec tile_size 0); [lia |].
  destruct (Z.ltb_spec INT_MAX tile_size); [lia |].
  destruct (Z.ltb_spec tile_size (- INT_MAX - 1)); [unfold INT_MAX in *; lia |].
  destruct (Z.leb_spec tile_size 0); [lia |].
  destruct (Z.ltb_spec tile_size 0); [lia |].
  destruct (Z.leb_spec (img_w im) 0); [lia |].
  destruct (Z.ltb_spec (img_h im) 0); [lia |].
  reflexivity.
Qed.

Lemma good_download_gives_artwork_witness :
  let cover := {| img_w := 300; img_h := 300; img_px := fun _ _ => (200, 10, 10) |} in
  let P := {| http_history := fun _ _ => None;
              http_cover := fun _ => Some {| status := 200; content := Some cover |};
              lanczos := fun im _ x y => img_px im x y |} in
  download_and_fit P (JStr (lit "http://a/174.png")) TILE
  = ([EvCoverGet (JStr (lit "http://a/174.png")) REQUEST_TIMEOUT],
     Ok {| img_w := TILE; img_h := TILE; img_px := lanczos P cover (TILE, TILE) |}).
Proof.
  intros cover P.
  apply (good_download_gives_artwork P (JStr (lit "http://a/174.png")) TILE
           {| status := 200; content := Some cover |} cover).
  - unfold TILE. lia.
  - reflexivity.
  - cbn. lia.
  - reflexivity.
  - cbn. lia.
  - cbn. lia.
Defined.

(* --------------------------------------------------------------------- *)
(* The aggregator: what the two dicts hold                                *)
(* --------------------------------------------------------------------- *)

Lemma images_inv_step st t st' :
  agg_step st t = Ok st' -> images_inv st -> images_inv st'.
Proof.
  intros H Hinv.
  destruct (agg_step_inv _ _ _ H) as [[_ ->] | (k & _ & Hc & Hi)]; [done |].
  intros k' u' Hl. rewrite Hc, counter_get_incr.
  assert (Hold : album_image st !! k' = Some u' ->
            truthy u' = true /\
            (1 <= (if decide (k' = k) then S (counter_get k (album_counts st))
                   else counter_get k' (album_counts st)))%nat).
  { intros Ho. destruct (Hinv k' u' Ho) as [Hu Hn]. split; [done |].
    case_decide; [lia | done]. }
  destruct Hi as [(v & _ & E) | (_ & u & _ & E)]; rewrite E in Hl; [by apply Hold |].
  destruct (truthy u) eqn:Hu; [| by apply Hold].
  destruct (decide (k' = k)) as [->|Hne].
  - rewrite lookup_insert_eq in Hl. injection Hl as <-. split; [done | lia].
  - rewrite lookup_insert_ne in Hl by done.
    destruct (Hinv k' u' Hl) as [? ?]. done.
Qed.

Lemma images_inv_loop ts :
  forall st st', agg_loop st ts = Ok st' -> images_inv st -> images_inv st'.
Proof.
  induction ts as [|t ts IH]; intros st st'; cbn [agg_loop].
  - by intros [= <-].
  - destruct (agg_step st t) as [st1|] eqn:Hs; cbn [rbind]; [| discriminate].
    intros Hl Hinv. apply (IH st1 st' Hl). by apply (images_inv_step st t).
Qed.

Lemma images_inv_init : images_inv agg_init.
Proof.
  intros k u H. cbn [agg_init album_image] in H.
  by rewrite lookup_empty in H.
Qed.

(** X7: when the aggregation goes through, the count of every key is the
    number of events of the window (the first LAST_N_LISTENS events) that
    have this key, and a key with a recorded artwork URL was played at
    least once and its URL is not empty. *)
Theorem aggregate_counts_and_images (l : list json) (st : agg_state) :
  aggregate (JArr l) = Ok st ->
  let win := take (Z.to_nat LAST_N_LISTENS) l in
  (forall k, counter_get k (album_counts st) = plays k win) /\
  (forall k u, album_image st !! k = Some u ->
     truthy u = true /\ (1 <= plays k win)%nat).
Proof.
  intros Hagg win. apply aggregate_window in Hagg. fold win in Hagg.
  destruct (agg_loop_counts win st Hagg) as (_ & Hget & _).
  split; [exact Hget |].
  intros k u Hl. rewrite <- Hget.
  exact (images_inv_loop win agg_init st Hagg images_inv_init k u Hl).
Qed.

Lemma aggregate_counts_and_images_witness :
  let l := [ listen (lit "A") (lit "X") [lit "u"];
             listen (lit "B") (lit "Y") [];
             listen (lit "A") (lit "X") [] ] in
  exists st,
    aggregate (JArr l) = Ok st /\
    counter_get (lit "A" ++ key_sep ++ lit "X") (album_counts st)
    = plays (lit "A" ++ key_sep ++ lit "X") (take (Z.to_nat LAST_N_LISTENS) l).
Proof.
  intros l.
  assert (H : exists st, aggregate (JArr l) = Ok st)
    by (eexists; vm_compute; reflexivity).
  destruct H as [st H]. exists st. split; [exact H |].
  exact (proj1 (aggregate_counts_and_images l st H) (lit "A" ++ key_sep ++ lit "X")).
Defined.

Lemma total_incr k c : total (counter_incr k c) = S (total c).
Proof.
  induction c as [|[k' n] c IH]; [done |]. cbn [counter_incr].
  case_decide; cbn [total foldr snd]; [done |].
  fold (total (counter_incr k c)). fold (total c). rewrite IH. lia.
Qed.

Lemma keyed_events_cons t win :
  keyed_events (t :: win)
  = ((if event_key t is Some _ then 1 else 0) + keyed_events win)%nat.
Proof.
  unfold keyed_events. destruct (event_key t) as [k|] eqn:E.
  - rewrite filter_cons_True; [done | by rewrite E].
  - rewrite filter_cons_False; [done |]. rewrite E. by intros [? ?].
Qed.

Lemma agg_loop_total ts :
  forall st st', agg_loop st ts = Ok st' ->
  total (album_counts st') = (total (album_counts st) + keyed_events ts)%nat.
Proof.
  induction ts as [|t ts IH]; intros st st'; cbn [agg_loop].
  - intros [= <-]. unfold keyed_events. cbn. lia.
  - destruct (agg_step st t) as [st1|] eqn:Hs; cbn [rbind]; [| discriminate].
    intros Hl. rewrite (IH st1 st' Hl), (agg_step_counts _ _ _ Hs), keyed_events_cons.
    destruct (event_key t); [rewrite total_incr |]; lia.
Qed.

(** X8: when the aggregation goes through, the counts add up to the number
    of events of the window that have an album key: every such event is
    counted once, the others not at all, and the sum is at most
    LAST_N_LISTENS whatever the number of events fetched. *)
Theorem counts_add_up (l : list json) (st : agg_state) :
  aggregate (JArr l) = Ok st ->
  total (album_counts st) = keyed_events (take (Z.to_nat LAST_N_LISTENS) l) /\
  (total (album_counts st) <= Z.to_nat LAST_N_LISTENS)%nat.
Proof.
  intros Hagg. apply aggregate_window in Hagg.
  pose proof (agg_loop_total _ _ _ Hagg) as E. cbn [agg_init album_counts total foldr] in E.
  split; [exact E |]. rewrite E. unfold keyed_events.
  etrans; [apply length_filter |]. rewrite length_take. lia.
Qed.

Lemma counts_add_up_witness :
  let l := [ listen (lit "A") (lit "X") [lit "u"];
             listen (lit "B") (lit "") [];
             listen (lit "A") (lit "X") [] ] in
  exists st,
    aggregate (JArr l) = Ok st /\
    total (album_counts st) = keyed_events (take (Z.to_nat LAST_N_LISTENS) l).
Proof.
  intros l.
  assert (H : exists st, aggregate (JArr l) = Ok st)
    by (eexists; vm_compute; reflexivity).
  destruct H as [st H]. exists st. split; [exact H |].
  exact (proj1 (counts_add_up l st H)).
Defined.

(** X9: the events past the first LAST_N_LISTENS play no part: with at
    least that many events fetched, whatever follows them (well formed or
    not) changes neither the result of the aggregation nor whether it
    raises. *)
Theorem beyond_window_ignored (l extra : list json) :
  (Z.to_nat LAST_N_LISTENS <= length l)%nat ->
  aggregate (JArr (l ++ extra)) = aggregate (JArr l).
Proof.
  intros Hlen. unfold aggregate. cbn [py_slice_upto rbind py_iter].
  unfold slice_upto. cbn [Z.ltb LAST_N_LISTENS Z.compare].
  by rewrite take_app_le.
Qed.

Lemma beyond_window_ignored_witness :
  aggregate (JArr (replicate 180 (listen (lit "A") (lit "X") []) ++ [JNull]))
  = aggregate (JArr (replicate 180 (listen (lit "A") (lit "X") []))).
Proof.
  apply (beyond_window_ignored (replicate 180 (listen (lit "A") (lit "X") [])) [JNull]).
  rewrite length_replicate. unfold LAST_N_LISTENS. lia.
Defined.

(* An event that is not an object cannot be processed: within the window
   it aborts the aggregation. *)
Example malformed_event_in_window :
  aggregate (JArr [listen (lit "A") (lit "X") []; JNull]) = Raise AttributeError.
Proof. reflexivity. Qed.

(* --------------------------------------------------------------------- *)
(* The run as a whole                                                     *)
(* --------------------------------------------------------------------- *)

Lemma saves_app tr1 tr2 : saves (tr1 ++ tr2) = (saves tr1 + saves tr2)%nat.
Proof. unfold saves. by rewrite filter_app, length_app. Qed.

Lemma saves_loop_trace images albums : saves (loop_trace images albums) = 0%nat.
Proof.
  induction albums as [|k rest IH]; [done |].
  unfold loop_trace in *. cbn [flat_map]. rewrite !saves_app, IH.
  unfold cover_requests. by destruct (truthy _).
Qed.

(* main is the run on a file system on which both calls succeed. *)
Lemma main_on_working P API_KEY USER :
  main_on working_fs P API_KEY USER = main P API_KEY USER.
Proof. reflexivity. Qed.

(* The composer on any file system: the loop, then the save and the
   report, or OSError in their place. *)
Lemma compose_on_eq F P st :
  exists canvas,
    compose_on F P st =
      (loop_trace (album_image st) (top_albums_of (album_counts st))
       ++ (if fs_save F OUT_PATH
           then [EvSave OUT_PATH canvas 92 true;
                 EvPrint OUT_PATH (GRID * TILE) (GRID * TILE)
                   (length (top_albums_of (album_counts st)))]
           else []),
       if fs_save F OUT_PATH then Ok tt else Raise OSError).
Proof.
  pose proof (Image_new_ok (GRID * TILE) (GRID * TILE) FALLBACK_COLOR
                ltac:(unfold GRID, TILE, INT_MAX; lia)
                ltac:(unfold GRID, TILE, INT_MAX; lia)) as Hnew.
  fold blank_canvas in Hnew.
  destruct (paste_loop_spec P (album_image st) (top_albums_of (album_counts st))
              0 blank_canvas ltac:(lia)) as (canvas & El & _).
  exists canvas. unfold compose_on. rewrite Hnew.
  unfold lift. unfold bind at 1. rewrite El. unfold bind at 1.
  destruct (fs_save F OUT_PATH); unfold bind, emit, raise; cbn [app];
    by rewrite ?app_nil_r.
Qed.

(* main on any file system, step by step. *)
Lemma main_on_eq F P API_KEY USER :
  main_on F P API_KEY USER =
    if fs_makedirs F OUT_DIR then
      match snd (collect P API_KEY USER) with
      | Ok st =>
          ([EvMakedirs OUT_DIR; history_request USER API_KEY 200]
           ++ fst (compose_on F P st), snd (compose_on F P st))
      | Raise e => ([EvMakedirs OUT_DIR; history_request USER API_KEY 200], Raise e)
      end
    else ([], Raise OSError).
Proof.
  unfold main_on. pose proof (collect_eq P API_KEY USER) as Ec.
  destruct (collect P API_KEY USER) as [tr r]. cbn [snd] in *.
  injection Ec as ->.
  destruct (fs_makedirs F OUT_DIR); [| reflexivity].
  destruct r as [st|e]; [| reflexivity].
  unfold bind, emit. by destruct (compose_on F P st).
Qed.

(** X10: a run is all or nothing, whatever the network and the file
    system do. main returns exactly when the directory can be made, the
    fetch and the aggregation go through and the save succeeds, and its
    trace then ends with the one save of the canvas followed by the report.
    In every other case main raises and nothing is saved: OSError before
    any request when the directory cannot be made, the exception of the
    fetch or of the aggregation right after the history request, and
    OSError when the save fails. *)
Theorem main_all_or_nothing (F : filesystem) (P : platform) (API_KEY USER : pystr) :
  (snd (main_on F P API_KEY USER) = Ok tt <->
   fs_makedirs F OUT_DIR = true /\
   (exists st, snd (collect P API_KEY USER) = Ok st) /\
   fs_save F OUT_PATH = true) /\
  match snd (main_on F P API_KEY USER) with
  | Ok _ =>
      saves (fst (main_on F P API_KEY USER)) = 1%nat /\
      exists tr canvas n,
        fst (main_on F P API_KEY USER)
        = tr ++ [EvSave OUT_PATH canvas 92 true;
                 EvPrint OUT_PATH (GRID * TILE) (GRID * TILE) n]
  | Raise e =>
      saves (fst (main_on F P API_KEY USER)) = 0%nat /\
      (fs_makedirs F OUT_DIR = false ->
       main_on F P API_KEY USER = ([], Raise OSError)) /\
      (fs_makedirs F OUT_DIR = true ->
       forall e', snd (collect P API_KEY USER) = Raise e' ->
       main_on F P API_KEY USER
       = ([EvMakedirs OUT_DIR; history_request USER API_KEY 200], Raise e')) /\
      (fs_makedirs F OUT_DIR = true ->
       (exists st, snd (collect P API_KEY USER) = Ok st) ->
       e = OSError /\ fs_save F OUT_PATH = false)
  end.
Proof.
  rewrite main_on_eq.
  destruct (fs_makedirs F OUT_DIR) eqn:Hm.
  - destruct (snd (collect P API_KEY USER)) as [st|e] eqn:Hc.
    + destruct (compose_on_eq F P st) as [canvas E]. rewrite E.
      destruct (fs_save F OUT_PATH) eqn:Hs; cbn [fst snd].
      * split.
        { split; [intros _ | done]. split; [done |]. split; [by exists st | done]. }
        split.
        -- rewrite !saves_app, saves_loop_trace. reflexivity.
        -- eexists _, canvas, _. rewrite app_assoc. reflexivity.
      * split.
        { split; [discriminate | by intros (_ & _ & ?)]. }
        split; [rewrite !saves_app, saves_loop_trace; reflexivity |].
        split; [discriminate |]. split; [intros _ e' [=] | done].
    + cbn [fst snd]. split.
      { split; [discriminate | by intros (_ & [st [=]] & _)]. }
      split; [reflexivity |]. split; [discriminate |].
      split; [by intros _ e' [= <-] | by intros _ [st [=]]].
  - cbn [fst snd]. split.
    { split; [discriminate | by intros ([=] & _)]. }
    split; [reflexivity |]. split; [done |]. split; discriminate.
Qed.

(* A save that fails (the output path is a directory, say) ends a run
   that had gone through, after its requests and delays. *)
Example failed_save_raises :
  let F := {| fs_makedirs := fun _ => true; fs_save := fun _ => false |} in
  let P := answering (JObj [(lit "recenttracks", JObj [(lit "track", JArr
             [ listen (lit "A") (lit "X") [lit "http://a/x.png"] ])])]) in
  snd (main_on F P (lit "k") (lit "u")) = Raise OSError /\
  saves (fst (main_on F P (lit "k") (lit "u"))) = 0%nat /\
  sleeps (fst (main_on F P (lit "k") (lit "u"))) = 1%nat.
Proof. cbv zeta. repeat split; vm_compute; reflexivity. Qed.

(* What collect returns comes from a non-empty list of tracks. *)
Lemma collect_inv P API_KEY USER st :
  snd (collect P API_KEY USER) = Ok st ->
  exists t l, aggregate (JArr (t :: l)) = Ok st.
Proof.
  unfold collect. rewrite lastfm_get_eq.
  destruct (snd (lastfm_get_recent_tracks P USER API_KEY 200)) as [data|]; [| discriminate].
  unfold bind, lift, raise. destruct (tracks_of data) as [tracks|]; [| discriminate].
  destruct tracks as [|b|q|s|l|fields]; try discriminate.
  - destruct b; discriminate.
  - cbn [truthy]. destruct (Qeq_bool q 0); discriminate.
  - destruct s as [|c s]; [discriminate |].
    cbn [truthy negb snd]. unfold aggregate. cbn [py_slice_upto rbind].
    unfold slice_upto. change (LAST_N_LISTENS <? 0) with false.
    change (Z.to_nat LAST_N_LISTENS) with (S 179). cbn [take py_iter rbind map].
    discriminate.
  - destruct l as [|t l]; [discriminate |].
    cbn [truthy negb snd]. intros H. by exists t, l.
  - destruct fields; discriminate.
Qed.

Lemma cover_gets_app tr1 tr2 :
  cover_gets (tr1 ++ tr2) = (cover_gets tr1 + cover_gets tr2)%nat.
Proof. unfold cover_gets. by rewrite filter_app, length_app. Qed.

Lemma cover_gets_loop_trace images albums :
  (forall k u, images !! k = Some u -> truthy u = true) ->
  cover_gets (loop_trace images albums)
  = length (filter (fun k => is_Some (images !! k)) albums).
Proof.
  intros Hinv. induction albums as [|k rest IH]; [done |].
  unfold loop_trace in *. cbn [flat_map]. rewrite !cover_gets_app, IH.
  unfold cover_requests. destruct (images !! k) as [u|] eqn:Hk.
  - rewrite filter_cons_True by (by rewrite Hk).
    change (default JNull (Some u)) with u. by rewrite (Hinv k u Hk).
  - rewrite filter_cons_False by (rewrite Hk; by intros [? ?]). reflexivity.
Qed.

(** X11: a run that reaches the composer requests one cover per selected
    album that has a recorded URL and none for the others, so it makes at
    most GRID * GRID cover requests. *)
Theorem cover_requests_bounded (P : platform) (API_KEY USER : pystr) (st : agg_state) :
  snd (collect P API_KEY USER) = Ok st ->
  cover_gets (fst (main P API_KEY USER))
  = length (filter (fun k => is_Some (album_image st !! k))
              (top_albums_of (album_counts st))) /\
  (cover_gets (fst (main P API_KEY USER)) <= Z.to_nat (GRID * GRID))%nat.
Proof.
  intros Hc.
  destruct (collect_inv P API_KEY USER st Hc) as (t & l & Hagg).
  apply aggregate_window in Hagg.
  pose proof (images_inv_loop _ agg_init st Hagg images_inv_init) as Hinv.
  destruct (main_completes P API_KEY USER st Hc) as (canvas & _ & _ & E & _).
  assert (Hn : cover_gets (fst (main P API_KEY USER))
               = length (filter (fun k => is_Some (album_image st !! k))
                           (top_albums_of (album_counts st)))).
  { rewrite E. cbn [fst]. rewrite !cover_gets_app, cover_gets_loop_trace.
    - assert (cover_gets [EvMakedirs OUT_DIR; history_request USER API_KEY 200] = 0%nat)
        as -> by reflexivity.
      assert (forall n, cover_gets [EvSave OUT_PATH canvas 92 true;
                                    EvPrint OUT_PATH (GRID * TILE) (GRID * TILE) n]
                        = 0%nat) as -> by reflexivity.
      lia.
    - intros k u Hk. by destruct (Hinv k u Hk). }
  split; [exact Hn |]. rewrite Hn.
  etrans; [apply length_filter | apply top_albums_length].
Qed.

Lemma cover_requests_bounded_witness :
  let P := answering (JObj [(lit "recenttracks", JObj [(lit "track", JArr
             [ listen (lit "A") (lit "X") [lit "http://a/x.png"];
               listen (lit "B") (lit "Y") [lit ""] ])])]) in
  (cover_gets (fst (main P (lit "k") (lit "u"))) <= Z.to_nat (GRID * GRID))%nat.
Proof.
  intros P.
  assert (H : exists st, snd (collect P (lit "k") (lit "u")) = Ok st)
    by (eexists; vm_compute; reflexivity).
  destruct H as [st H].
  exact (proj2 (cover_requests_bounded P (lit "k") (lit "u") st H)).
Defined.

Lemma main_raises P API_KEY USER e :
  snd (collect P API_KEY USER) = Raise e -> snd (main P API_KEY USER) = Raise e.
Proof. intros H. unfold main. rewrite collect_eq, H. reflexivity. Qed.

Lemma collect_of_data P API_KEY USER data :
  snd (lastfm_get_recent_tracks P USER API_KEY 200) = Ok data ->
  snd (collect P API_KEY USER)
  = match tracks_of data with
    | Ok tracks =>
        if negb (truthy tracks)
        then Raise (RuntimeError (lit "No tracks returned. CHECK LASTFM_USER / API key"))
        else aggregate tracks
    | Raise e => Raise e
    end.
Proof.
  intros Hdata. unfold collect. rewrite lastfm_get_eq, Hdata.
  unfold bind, lift, raise. destruct (tracks_of data) as [tracks|e]; [| done].
  by destruct (negb (truthy tracks)).
Qed.

(** X12: a body without "recenttracks" (such as the error report of the
    service) or without "track" inside it ends the run with the
    RuntimeError for no tracks; a "recenttracks" that is present but is
    not an object (null, a list, a string) ends it with AttributeError
    instead, the default of get applying to a missing key only. *)
Theorem recenttracks_missing_or_malformed
    (P : platform) (API_KEY USER : pystr) (d : list (pystr * json)) :
  snd (lastfm_get_recent_tracks P USER API_KEY 200) = Ok (JObj d) ->
  (dict_lookup (lit "recenttracks") d = None ->
   snd (main P API_KEY USER)
   = Raise (RuntimeError (lit "No tracks returned. CHECK LASTFM_USER / API key"))) /\
  (forall rt, dict_lookup (lit "recenttracks") d = Some (JObj rt) ->
     dict_lookup (lit "track") rt = None ->
     snd (main P API_KEY USER)
     = Raise (RuntimeError (lit "No tracks returned. CHECK LASTFM_USER / API key"))) /\
  (forall v, dict_lookup (lit "recenttracks") d = Some v ->
     (forall rt, v <> JObj rt) ->
     snd (main P API_KEY USER) = Raise AttributeError).
Proof.
  intros Hdata. pose proof (collect_of_data P API_KEY USER _ Hdata) as Hc.
  unfold tracks_of in Hc. cbn [py_get rbind] in Hc. unfold dict_get at 1 in Hc.
  split; [| split].
  - intros Hrt. apply main_raises. rewrite Hc, Hrt. reflexivity.
  - intros rt Hrt Htr. apply main_raises. rewrite Hc, Hrt.
    cbn [py_get rbind]. unfold dict_get. rewrite Htr. reflexivity.
  - intros v Hrt Hv. apply main_raises. rewrite Hc, Hrt.
    destruct v; try reflexivity. by destruct (Hv fields).
Qed.

Lemma recenttracks_missing_or_malformed_witness :
  let d := [(lit "error", JNum 6); (lit "message", JStr (lit "User not found"))] in
  snd (main (answering (JObj d)) (lit "k") (lit "u"))
  = Raise (RuntimeError (lit "No tracks returned. CHECK LASTFM_USER / API key")).
Proof.
  intros d.
  apply (proj1 (recenttracks_missing_or_malformed
                  (answering (JObj d)) (lit "k") (lit "u") d eq_refl)).
  reflexivity.
Defined.

(** X13: when one of the two settings is missing from the environment,
    the script stops with KeyError for the missing name before main is
    called: no directory is created and no request is made. *)
Theorem missing_setting_is_fatal (environ : pystr -> option pystr) (P : platform) :
  environ (lit "LASTFM_API_KEY") = None \/ environ (lit "LASTFM_USER") = None ->
  exists name,
    script environ P = ([], Raise (KeyError name)) /\
    environ name = None /\
    (name = lit "LASTFM_API_KEY" \/ name = lit "LASTFM_USER").
Proof.
  intros H. unfold script, environ_get, bind, lift.
  destruct (environ (lit "LASTFM_API_KEY")) as [key|] eqn:Hk.
  - destruct H as [H|H]; [discriminate |]. rewrite H.
    exists (lit "LASTFM_USER"). split; [done |]. split; [done | by right].
  - exists (lit "LASTFM_API_KEY"). split; [done |]. split; [done | by left].
Qed.

Lemma missing_setting_is_fatal_witness :
  exists name,
    script (fun n => if decide (n = lit "LASTFM_USER") then Some (lit "u") else None)
      offline
    = ([], Raise (KeyError name)) /\
    (fun n => if decide (n = lit "LASTFM_USER") then Some (lit "u") else None) name = None /\
    (name = lit "LASTFM_API_KEY" \/ name = lit "LASTFM_USER").
Proof.
  apply (missing_setting_is_fatal
           (fun n => if decide (n = lit "LASTFM_USER") then Some (lit "u") else None)
           offline).
  left. reflexivity.
Defined.

Lemma agg_loop_unkeyed ts st :
  (forall t, t ∈ ts -> safe_album_key t = Ok None) -> agg_loop st ts = Ok st.
Proof.
  induction ts as [|t ts IH]; intros Hall; [done |].
  cbn [agg_loop]. unfold agg_step. rewrite (Hall t) by left. cbn [rbind].
  apply IH. intros t' Hin. apply Hall. by right.
Qed.

(** X14: when no event of the window has an album key, the run still
    goes to its end: no album is selected, no cover is requested, no delay
    is made, and the canvas saved is the blank one, GRID*TILE pixels a side
    of the fallback colour, reported with 0 albums. *)
Theorem unkeyed_window_saves_blank
    (P : platform) (API_KEY USER : pystr) (data t : json) (l : list json) :
  snd (lastfm_get_recent_tracks P USER API_KEY 200) = Ok data ->
  tracks_of data = Ok (JArr (t :: l)) ->
  (forall t', t' ∈ take (Z.to_nat LAST_N_LISTENS) (t :: l) ->
     safe_album_key t' = Ok None) ->
  main P API_KEY USER
  = ([EvMakedirs OUT_DIR; history_request USER API_KEY 200;
      EvSave OUT_PATH blank_canvas 92 true;
      EvPrint OUT_PATH (GRID * TILE) (GRID * TILE) 0],
     Ok tt).
Proof.
  intros Hdata Htracks Hall.
  assert (Hc : snd (collect P API_KEY USER) = Ok agg_init).
  { rewrite (collect_of_data P API_KEY USER data Hdata), Htracks.
    cbn [truthy negb]. unfold aggregate. cbn [py_slice_upto rbind py_iter].
    by apply agg_loop_unkeyed. }
  unfold main. rewrite collect_eq, Hc. reflexivity.
Qed.

Lemma unkeyed_window_saves_blank_witness :
  let data := JObj [(lit "recenttracks", JObj [(lit "track", JArr
                [ JObj [(lit "artist", JStr (lit "A"))];
                  listen (lit " ") (lit "X") [lit "u"] ])])] in
  main (answering data) (lit "k") (lit "u")
  = ([EvMakedirs OUT_DIR; history_request (lit "u") (lit "k") 200;
      EvSave OUT_PATH blank_canvas 92 true;
      EvPrint OUT_PATH (GRID * TILE) (GRID * TILE) 0],
     Ok tt).
Proof.
  intros data.
  apply (unkeyed_window_saves_blank (answering data) (lit "k") (lit "u") data
           (JObj [(lit "artist", JStr (lit "A"))])
           [listen (lit " ") (lit "X") [lit "u"]]).
  - reflexivity.
  - reflexivity.
  - intros t' Hin. cbn in Hin.
    apply elem_of_cons in Hin as [-> | Hin]; [reflexivity |].
    apply list_elem_of_singleton in Hin as ->. reflexivity.
Defined.

(* --------------------------------------------------------------------- *)
(* The selection and the grid: sizes                                      *)
(* --------------------------------------------------------------------- *)

(** X15: the number of albums selected is the smaller of GRID * GRID and
    the number of distinct album keys of the window; when the window has at
    most GRID * GRID distinct keys, every key played in it is selected. *)
Theorem selection_size (l : list json) (st : agg_state) :
  aggregate (JArr l) = Ok st ->
  let win := take (Z.to_nat LAST_N_LISTENS) l in
  let top := top_albums_of (album_counts st) in
  length top = Nat.min (Z.to_nat (GRID * GRID)) (length (album_counts st)) /\
  NoDup (album_counts st).*1 /\
  (forall k, k ∈ (album_counts st).*1 <-> (1 <= plays k win)%nat) /\
  ((length (album_counts st) <= Z.to_nat (GRID * GRID))%nat ->
   forall k, (1 <= plays k win)%nat -> k ∈ top).
Proof.
  intros Hagg win top. apply aggregate_window in Hagg. fold win in Hagg.
  destruct (agg_loop_counts win st Hagg) as (Hnd & _ & Hin & _).
  pose proof (sorted_desc_perm (album_counts st)) as Hperm.
  split; [| split; [done | split; [done |]]].
  - unfold top, top_albums_of, most_common.
    by rewrite length_fmap, length_take, (Permutation_length Hperm).
  - intros Hfew k Hk. unfold top, top_albums_of, most_common.
    rewrite take_ge by (rewrite (Permutation_length Hperm); lia).
    rewrite Hperm. by apply Hin.
Qed.

Lemma selection_size_witness :
  let l := [ listen (lit "A") (lit "X") [];
             listen (lit "B") (lit "Y") [];
             listen (lit "A") (lit "X") [] ] in
  exists st,
    aggregate (JArr l) = Ok st /\
    length (top_albums_of (album_counts st))
    = Nat.min (Z.to_nat (GRID * GRID)) (length (album_counts st)).
Proof.
  intros l.
  assert (H : exists st, aggregate (JArr l) = Ok st)
    by (eexists; vm_compute; reflexivity).
  destruct H as [st H]. exists st. split; [exact H |].
  exact (proj1 (selection_size l st H)).
Defined.

(** X16: the paste of a TILE x TILE tile for the index idx changes the
    pixels of the grid cell idx and no other: inside the cell the canvas
    takes the tile's pixels, elsewhere it keeps its own, so the tiles of
    different albums never overlap. *)
Theorem paste_touches_one_cell (canvas tile : image) (idx x y : Z) :
  img_w tile = TILE -> img_h tile = TILE ->
  0 <= idx -> 0 <= x < GRID * TILE -> 0 <= y ->
  img_px (paste canvas tile (idx mod GRID * TILE, idx / GRID * TILE)) x y
  = if decide (cell_of x y = idx)
    then img_px tile (x mod TILE) (y mod TILE)
    else img_px canvas x y.
Proof.
  intros Hw Hh Hidx Hx Hy. unfold paste. cbn [img_px]. rewrite Hw, Hh.
  destruct (decide (cell_of x y = idx)) as [Hc|Hc].
  - rewrite (proj2 (in_cell_box idx x y Hidx Hx Hy) Hc).
    by destruct (in_cell_offset idx x y Hx Hy Hc) as [-> ->].
  - destruct (_ && _) eqn:Hb; [| done].
    by apply (in_cell_box idx x y Hidx Hx Hy) in Hb.
Qed.

Lemma paste_touches_one_cell_witness :
  img_px (paste blank_canvas
            {| img_w := TILE; img_h := TILE; img_px := fun _ _ => (200, 10, 10) |}
            (7 mod GRID * TILE, 7 / GRID * TILE)) 500 250
  = if decide (cell_of 500 250 = 7)
    then img_px {| img_w := TILE; img_h := TILE; img_px := fun _ _ => (200, 10, 10) |}
           (500 mod TILE) (250 mod TILE)
    else img_px blank_canvas 500 250.
Proof.
  apply (paste_touches_one_cell blank_canvas
           {| img_w := TILE; img_h := TILE; img_px := fun _ _ => (200, 10, 10) |}
           7 500 250); cbn; unfold GRID, TILE; lia.
Defined.
